(** * BitMagic set algebra: compressed bit-vectors, the operation engine,
    serialization, deserialize-with-operation and the aggregator.

    The repository ships the demo driver [samples/bvsetalgebra/bvsetalgebra.cpp]
    only; the engine it calls ([bm.h], [bmalgo.h], [bmserial.h],
    [bmaggregator.h]) is not part of the sources.  Every engine definition
    below is therefore modelled from the spec (sections 3, 4 and 6), while the
    scenarios of the demo ([DemoOR], [DemoAND], [make_BLOB]) are translated
    from the driver.

    Positions are unsigned integers, modelled as [nat].  The block width [W]
    and the RunList density threshold [gap_limit] are configuration
    parameters (spec 9: compile-time width parameters become explicit
    configuration), shared as Section variables. *)

From Stdlib Require Import Arith Bool List Lia Permutation Btauto NArith.
From stdpp Require Import base gmap list.
Import ListNotations.

(** ** Operation codes (spec 6: [OR], [AND], [SUB], [XOR]) *)

Inductive operation := BM_OR | BM_AND | BM_SUB | BM_XOR.

(** Boolean meaning of an operation code at one position (spec 4.3: the
    operations are purely boolean per position). *)
Definition op_bool (op : operation) (a b : bool) : bool :=
  match op with
  | BM_OR => a || b
  | BM_AND => a && b
  | BM_SUB => a && negb b
  | BM_XOR => xorb a b
  end.

(** ** Blocks (spec 3) *)

(** The four block variants: [Empty] and [Full] carry no payload, [Bitmap]
    packs the [W] bits of the block, [RunList] (GAP encoding) keeps the
    ordered toggle positions. *)
Inductive block :=
| Empty
| Full
| Bitmap (bits : list bool)
| RunList (toggles : list nat).

(** Variant tag, the index of the dispatch table (spec 9). *)
Inductive block_tag := TEmpty | TFull | TBitmap | TRunList.

Definition tag_of (b : block) : block_tag :=
  match b with
  | Empty => TEmpty
  | Full => TFull
  | Bitmap _ => TBitmap
  | RunList _ => TRunList
  end.

(** Value of a RunList at offset [i]: every toggle at or before [i] flips the
    running value, which starts at 0. *)
Definition gap_test (toggles : list nat) (i : nat) : bool :=
  Nat.odd (length (List.filter (fun t => t <=? i) toggles)).

(** RunList construction (spec 4.1): scan the bits in ascending order and
    emit a toggle position each time the running value flips. *)
Fixpoint gap_from (prev : bool) (i : nat) (bits : list bool) : list nat :=
  match bits with
  | [] => []
  | b :: rest =>
      if Bool.eqb b prev then gap_from b (S i) rest
      else i :: gap_from b (S i) rest
  end.

Definition gap_of_bits (bits : list bool) : list nat := gap_from false 0 bits.

Definition all_zero (bits : list bool) : bool := forallb negb bits.
Definition all_one (bits : list bool) : bool := forallb (fun x => x) bits.

Section Engine.

Variable W : nat.
Variable gap_limit : nat.

(** Modelled from the spec: [bm.h], which defines it, is not in the sources.
    Logical content of a block at offset [i < W]. *)
Definition block_get (b : block) (i : nat) : bool :=
  match b with
  | Empty => false
  | Full => true
  | Bitmap bits => nth i bits false
  | RunList toggles => gap_test toggles i
  end.

(** The transient bitmap view of a block. *)
Definition to_bits (b : block) : list bool := map (block_get b) (seq 0 W).

(** Modelled from the spec: [bm.h], which defines it, is not in the sources.
    Store [bits] back in the variant of [b], canonicalising all-zero content
    to [Empty] and all-one content to [Full] (spec 4.1, [set]). *)
Definition rebuild (b : block) (bits : list bool) : block :=
  if all_zero bits then Empty
  else if all_one bits then Full
  else match b with
       | RunList _ => RunList (gap_of_bits bits)
       | _ => Bitmap bits
       end.

Definition canon (b : block) : block := rebuild b (to_bits b).

(** The bit-level pass of the engine, on two transient bitmap views. *)
Definition bit_pass (f : bool -> bool -> bool) (b1 b2 : block) : block :=
  rebuild b1 (map (fun i => f (block_get b1 i) (block_get b2 i)) (seq 0 W)).

(** Invariant of a stored block (spec 3): no payload equivalent to [Empty]
    (nor to [Full]), a bitmap of exactly [W] bits, a RunList of strictly
    ascending toggles inside the block. *)
Fixpoint strictly_ascending (l : list nat) : bool :=
  match l with
  | [] => true
  | x :: rest =>
      match rest with
      | [] => true
      | y :: _ => (x <? y) && strictly_ascending rest
      end
  end.

(** Modelled from the spec: [bm.h], which defines it, is not in the sources. *)
Definition block_ok (b : block) : bool :=
  match b with
  | Empty => false
  | Full => true
  | Bitmap bits =>
      (length bits =? W) && negb (all_zero bits) && negb (all_one bits)
  | RunList ts =>
      strictly_ascending ts && forallb (fun t => t <? W) ts
      && negb (all_zero (to_bits b)) && negb (all_one (to_bits b))
  end.

(** ** Operation engine, per-operator entry points (spec 4.3).
    Short-circuit rules first; the bit-level pass only when neither side
    decides the result. *)

(** Modelled from the spec: [bm.h], which defines it, is not in the sources. *)
Definition block_or (b1 b2 : block) : block :=
  match b1, b2 with
  | Full, _ | _, Full => Full
  | Empty, x | x, Empty => x
  | _, _ => bit_pass orb b1 b2
  end.

Definition block_and (b1 b2 : block) : block :=
  match b1, b2 with
  | Empty, _ | _, Empty => Empty
  | Full, x | x, Full => x
  | _, _ => bit_pass andb b1 b2
  end.

Definition block_sub (b1 b2 : block) : block :=
  match b1, b2 with
  | Empty, _ | _, Full => Empty
  | x, Empty => x
  | _, _ => bit_pass (fun a b => a && negb b) b1 b2
  end.

Definition block_xor (b1 b2 : block) : block :=
  match b1, b2 with
  | Empty, x | x, Empty => x
  | Full, Full => Empty
  | _, _ => bit_pass xorb b1 b2
  end.

(** ** Table-driven engine (spec 9): the action for (operator, left tag,
    right tag). *)
Inductive action := TakeLeft | TakeRight | MakeEmpty | MakeFull | BitPass.

Definition dispatch (op : operation) (t1 t2 : block_tag) : action :=
  match op, t1, t2 with
  | BM_OR, TFull, _ | BM_OR, _, TFull => MakeFull
  | BM_OR, TEmpty, _ => TakeRight
  | BM_OR, _, TEmpty => TakeLeft
  | BM_AND, TEmpty, _ | BM_AND, _, TEmpty => MakeEmpty
  | BM_AND, TFull, _ => TakeRight
  | BM_AND, _, TFull => TakeLeft
  | BM_SUB, TEmpty, _ | BM_SUB, _, TFull => MakeEmpty
  | BM_SUB, _, TEmpty => TakeLeft
  | BM_XOR, TEmpty, _ => TakeRight
  | BM_XOR, _, TEmpty => TakeLeft
  | BM_XOR, TFull, TFull => MakeEmpty
  | _, _, _ => BitPass
  end.

(** Modelled from the spec: [bm.h], which defines it, is not in the sources. *)
Definition table_block (op : operation) (b1 b2 : block) : block :=
  match dispatch op (tag_of b1) (tag_of b2) with
  | TakeLeft => b1
  | TakeRight => b2
  | MakeEmpty => Empty
  | MakeFull => Full
  | BitPass => bit_pass (op_bool op) b1 b2
  end.

(** ** BlockStore (spec 3, 4.1): block index to block; a missing index is
    [Empty]. *)
Definition blk (o : option block) : block :=
  match o with Some b => b | None => Empty end.

(** Modelled from the spec: [bm.h], which defines it, is not in the sources. *)
Definition store_get (st : gmap nat block) (p : nat) : bool :=
  block_get (blk (st !! (p / W))) (p mod W).

(** An [Empty] block occupies no slot. *)
Definition to_slot (b : block) : option block :=
  match b with Empty => None | _ => Some b end.

Definition store_put (st : gmap nat block) (k : nat) (b : block) : gmap nat block :=
  match to_slot b with
  | None => delete k st
  | Some b' => <[k := b']> st
  end.

(** Modelled from the spec: [bm.h], which defines it, is not in the sources.
    [set(index, block)] with canonicalisation. *)
Definition store_set (st : gmap nat block) (k : nat) (b : block) : gmap nat block :=
  store_put st k (canon b).

(** Pairwise combination of two stores, block index by block index. *)
Definition store_combine (f : block -> block -> block)
    (st1 st2 : gmap nat block) : gmap nat block :=
  merge (fun o1 o2 => to_slot (f (blk o1) (blk o2))) st1 st2.

(** ** BitVector (spec 3, 4.2).  [None] size = unbounded. *)
Record bvector := mk_bv { bv_size : option nat; bv_store : gmap nat block }.

Definition bv_empty : bvector := mk_bv None ∅.

Definition within (sz : option nat) (p : nat) : bool :=
  match sz with None => true | Some n => p <? n end.

Definition size_max (s1 s2 : option nat) : option nat :=
  match s1, s2 with
  | Some a, Some b => Some (Nat.max a b)
  | _, _ => None
  end.

(** Modelled from the spec: [bm.h], which defines it, is not in the sources. *)
Definition bv_get (v : bvector) (p : nat) : bool :=
  within (bv_size v) p && store_get (bv_store v) p.

(** Modelled from the spec: [bm.h], which defines it, is not in the sources.
    Binary operators: union-like size growth, then the engine. *)
Definition bv_combine (f : block -> block -> block) (a b : bvector) : bvector :=
  mk_bv (size_max (bv_size a) (bv_size b))
        (store_combine f (bv_store a) (bv_store b)).

Definition bit_or (a b : bvector) : bvector := bv_combine block_or a b.
Definition bit_and (a b : bvector) : bvector := bv_combine block_and a b.
Definition bit_sub (a b : bvector) : bvector := bv_combine block_sub a b.
Definition bit_xor (a b : bvector) : bvector := bv_combine block_xor a b.

(** Modelled from the spec: [bm.h], which defines it, is not in the sources.
    The named method for an operation code. *)
Definition bit_named (op : operation) : bvector -> bvector -> bvector :=
  match op with
  | BM_OR => bit_or
  | BM_AND => bit_and
  | BM_SUB => bit_sub
  | BM_XOR => bit_xor
  end.

(** Modelled from the spec: [bm.h], which defines it, is not in the sources.
    [combine_operation(other, opcode)]: the table-driven entry point. *)
Definition combine_operation (a b : bvector) (op : operation) : bvector :=
  bv_combine (table_block op) a b.

(** [set(position)]: a position beyond a bounded size grows the size to
    cover it. *)
Definition grow_to (sz : option nat) (p : nat) : option nat :=
  if within sz p then sz else Some (S p).

Definition block_set_bits (b : block) (offs : list nat) : block :=
  match b with
  | Full => Full
  | _ => rebuild b (map (fun j => existsb (Nat.eqb j) offs || block_get b j) (seq 0 W))
  end.

(** Modelled from the spec: [bm.h], which defines it, is not in the sources. *)
Definition bv_set_bit (v : bvector) (p : nat) : bvector :=
  let st := bv_store v in
  mk_bv (grow_to (bv_size v) p)
        (store_put st (p / W) (block_set_bits (blk (st !! (p / W))) [p mod W])).

(** Modelled from the spec: [bm.h], which defines it, is not in the sources.
    Construction from an explicit set of positions, [bvector<> {1, 2, 3}]. *)
Definition bv_of_list (l : list nat) : bvector := fold_left bv_set_bit l bv_empty.

(** [resize(n)]: bits at or beyond [n] are cleared. *)
Definition resize_block (n k : nat) (b : block) : option block :=
  if n <=? k * W then None
  else if S k * W <=? n then Some b
  else to_slot (rebuild b (map (fun i => (k * W + i <? n) && block_get b i) (seq 0 W))).

(** Modelled from the spec: [bm.h], which defines it, is not in the sources. *)
Definition bv_resize (v : bvector) (n : nat) : bvector :=
  mk_bv (Some n) (map_imap (resize_block n) (bv_store v)).

(** The enumerator [first()]: set positions in ascending order, scanning
    the blocks up to the highest occupied index. *)
Definition top_block (st : gmap nat block) : nat :=
  list_max (map (fun kb => S (fst kb)) (map_to_list st)).

Definition bv_enumerate (v : bvector) : list nat :=
  List.filter (bv_get v) (seq 0 (top_block (bv_store v) * W)).
(** ** [optimize(level)] (spec 4.1).  Levels follow the effort ladder of the
    library: 0 leaves the blocks, 1 frees all-zero blocks, 2 also turns
    all-one blocks into [Full], 3 ([opt_compress]) also picks a RunList
    when its toggle count is below the density threshold [gap_limit]. *)
(** Modelled from the spec: [bm.h], which defines it, is not in the sources. *)
Definition optimize_block (level : nat) (b : block) : block :=
  match level with
  | 0 => b
  | _ =>
      let bits := to_bits b in
      if all_zero bits then Empty
      else if 2 <=? level then
        if all_one bits then Full
        else if 3 <=? level then
          let g := gap_of_bits bits in
          if length g <? gap_limit then RunList g else Bitmap bits
        else b
      else b
  end.

(** Modelled from the spec: [bm.h], which defines it, is not in the sources. *)
Definition bv_optimize (level : nat) (v : bvector) : bvector :=
  mk_bv (bv_size v) (map_imap (fun _ b => to_slot (optimize_block level b)) (bv_store v)).

Definition opt_compress : nat := 3.

(** ** Serialized buffer (spec 4.5, 6), as a stream of machine words: a
    header (format marker, size) and one record per non-[Empty] block
    (variant tag, block index, payload), closed by an end token. *)
Definition bm_magic : nat := 186.
Definition tag_end : nat := 0.
Definition tag_full : nat := 1.
Definition tag_bit : nat := 2.
Definition tag_gap : nat := 3.

Definition size_code (sz : option nat) : nat :=
  match sz with None => 0 | Some n => S n end.

Definition size_of_code (c : nat) : option nat :=
  match c with 0 => None | S n => Some n end.

Definition bit_record (k : nat) (b : block) : list nat :=
  tag_bit :: k :: map Nat.b2n (to_bits b).

Definition gap_record (k : nat) (ts : list nat) : list nat :=
  tag_gap :: k :: length ts :: ts.

(** Modelled from the spec: [bmserial.h], which defines it, is not in the sources.
    The encoding of one block at compression level [level]: level 0 writes
    RunLists as bitmaps; level 4 and above also writes sparse bitmaps as
    RunLists. *)
Definition encode_block (level : nat) (k : nat) (b : block) : list nat :=
  match b with
  | Empty => []
  | Full => [tag_full; k]
  | Bitmap _ =>
      let g := gap_of_bits (to_bits b) in
      if (4 <=? level) && (length g <? gap_limit) then gap_record k g
      else bit_record k b
  | RunList ts => if level =? 0 then bit_record k b else gap_record k ts
  end.

Definition encode_records (level : nat) (v : bvector) : list nat :=
  flat_map (fun kb => encode_block level (fst kb) (snd kb)) (map_to_list (bv_store v)).

(** Modelled from the spec: [bmserial.h], which defines it, is not in the sources. *)
Definition serialize (level : nat) (v : bvector) : list nat :=
  bm_magic :: size_code (bv_size v) :: encode_records level v ++ [tag_end].

(** [make_BLOB] of the demo: compression level 4, [optimize(opt_compress)]
    first, then serialize. *)
Definition make_BLOB (v : bvector) : list nat :=
  serialize 4 (bv_optimize opt_compress v).

(** ** Decoding *)
Inductive decode_error := BadHeader | Truncated | UnknownTag (t : nat).

Definition take_words (n : nat) (ws : list nat) : option (list nat * list nat) :=
  if n <=? length ws then Some (firstn n ws, skipn n ws) else None.

Inductive record_step :=
| RecEnd (rest : list nat)
| RecBlock (k : nat) (b : block) (rest : list nat)
| RecError (e : decode_error).

(** Modelled from the spec: [bmserial.h], which defines it, is not in the sources. *)
Definition decode_record (ws : list nat) : record_step :=
  match ws with
  | [] => RecError Truncated
  | tag :: ws1 =>
      if tag =? tag_end then RecEnd ws1
      else match ws1 with
           | [] => RecError Truncated
           | k :: ws2 =>
               if tag =? tag_full then RecBlock k Full ws2
               else if tag =? tag_bit then
                 match take_words W ws2 with
                 | Some (wbits, rest) =>
                     RecBlock k (Bitmap (map (fun w => negb (w =? 0)) wbits)) rest
                 | None => RecError Truncated
                 end
               else if tag =? tag_gap then
                 match ws2 with
                 | [] => RecError Truncated
                 | len :: ws3 =>
                     match take_words len ws3 with
                     | Some (ts, rest) => RecBlock k (RunList ts) rest
                     | None => RecError Truncated
                     end
                 end
               else RecError (UnknownTag tag)
           end
  end.

(** Modelled from the spec: [bmserial.h], which defines it, is not in the sources. *)
Definition decode_header (ws : list nat) : option nat * list nat + decode_error :=
  match ws with
  | [] => inr Truncated
  | [m] => if m =? bm_magic then inr Truncated else inr BadHeader
  | m :: c :: rest => if m =? bm_magic then inl (size_of_code c, rest) else inr BadHeader
  end.

(** Modelled from the spec: [bmserial.h], which defines it, is not in the sources.
    The streaming loop: decode one record, fold it into the store at once,
    remember its index.  On error the store as it stands is returned: every
    record folded so far was complete. *)
Fixpoint deser_loop (fuel : nat) (fold : gmap nat block -> nat -> block -> gmap nat block)
    (st : gmap nat block) (seen : gset nat) (ws : list nat)
    : (gmap nat block * gset nat) + (gmap nat block * decode_error) :=
  match fuel with
  | 0 => inr (st, Truncated)
  | S fuel' =>
      match decode_record ws with
      | RecEnd _ => inl (st, seen)
      | RecBlock k b rest => deser_loop fuel' fold (fold st k b) ({[k]} ∪ seen) rest
      | RecError e => inr (st, e)
      end
  end.

Inductive deser_result :=
| DeserOk (v : bvector)
| DeserFail (v : bvector) (e : decode_error).

(** Modelled from the spec: [bmserial.h], which defines it, is not in the sources.
    Construction from a serialized buffer. *)
Definition bv_decode (ws : list nat) : deser_result :=
  match decode_header ws with
  | inr e => DeserFail bv_empty e
  | inl (sz, body) =>
      match deser_loop (S (length body)) store_set ∅ ∅ body with
      | inl (st, _) => DeserOk (mk_bv sz st)
      | inr (st, e) => DeserFail (mk_bv sz st) e
      end
  end.

(** [operation_deserializer::deserialize(dst, buf, op)] (spec 4.6): each
    decoded block is folded into the destination block at the same index by
    the table-driven engine.  For AND, destination blocks with no record in
    the stream meet an [Empty] source block and are cleared at the end. *)
Definition deser_fold (op : operation) (st : gmap nat block) (k : nat) (b : block)
    : gmap nat block :=
  store_set st k (table_block op (blk (st !! k)) b).

Definition clear_unseen (seen : gset nat) (st : gmap nat block) : gmap nat block :=
  map_imap (fun k b => if decide (k ∈ seen) then Some b else None) st.

(** Modelled from the spec: [bmserial.h], which defines it, is not in the sources. *)
Definition op_deserialize (dst : bvector) (ws : list nat) (op : operation) : deser_result :=
  match decode_header ws with
  | inr e => DeserFail dst e
  | inl (sz, body) =>
      let sz' := size_max (bv_size dst) sz in
      match deser_loop (S (length body)) (deser_fold op) (bv_store dst) ∅ body with
      | inl (st, seen) =>
          DeserOk (mk_bv sz' (match op with BM_AND => clear_unseen seen st | _ => st end))
      | inr (st, e) => DeserFail (mk_bv sz' st) e
      end
  end.

(** ** Aggregator (spec 4.7).  The sources are scanned together, block index
    by block index, with block-level short circuits. *)
Record aggregator := mk_agg { agg_sources : list bvector; agg_optimize : bool }.

Definition agg_new : aggregator := mk_agg [] false.
Definition agg_add (a : aggregator) (v : bvector) : aggregator :=
  mk_agg (agg_sources a ++ [v]) (agg_optimize a).
Definition agg_set_optimization (a : aggregator) : aggregator :=
  mk_agg (agg_sources a) true.
Definition agg_reset (a : aggregator) : aggregator := agg_new.

Definition is_full (b : block) : bool := match b with Full => true | _ => false end.
Definition is_empty (b : block) : bool := match b with Empty => true | _ => false end.

(** Modelled from the spec: [bmaggregator.h], which defines it, is not in the sources.
    OR of the blocks of all sources at one index: any [Full] decides,
    [Empty] blocks are skipped, a single remaining block is taken as is. *)
Definition agg_or_block (bs : list block) : block :=
  if existsb is_full bs then Full
  else match List.filter (fun b => negb (is_empty b)) bs with
       | [] => Empty
       | [b] => b
       | (b :: _) as nz =>
           rebuild b (map (fun i => existsb (fun x => block_get x i) nz) (seq 0 W))
       end.

(** Modelled from the spec: [bmaggregator.h], which defines it, is not in the sources.
    AND of the blocks at one index: any [Empty] decides, [Full] blocks are
    skipped. *)
Definition agg_and_block (bs : list block) : block :=
  if existsb is_empty bs then Empty
  else match List.filter (fun b => negb (is_full b)) bs with
       | [] => Full
       | [b] => b
       | (b :: _) as nf =>
           rebuild b (map (fun i => forallb (fun x => block_get x i) nf) (seq 0 W))
       end.

Definition blocks_at (srcs : list bvector) (k : nat) : list block :=
  map (fun v => blk (bv_store v !! k)) srcs.

(** Size of the result: the union-like size rule over all sources. *)
Definition agg_size (srcs : list bvector) : option nat :=
  match srcs with
  | [] => None
  | s :: rest => fold_left (fun acc v => size_max acc (bv_size v)) rest (bv_size s)
  end.

Definition agg_finish (a : aggregator) (v : bvector) : bvector :=
  if agg_optimize a then bv_optimize opt_compress v else v.

(** Modelled from the spec: [bmaggregator.h], which defines it, is not in the sources.
    [combine_or(target)]: the previous content of the target is
    overwritten.  Candidate indices: those of any source. *)
Definition agg_combine_or (a : aggregator) (target : bvector) : bvector :=
  let srcs := agg_sources a in
  let keys := foldr (fun v acc => bv_store v ∪ acc) ∅ srcs in
  agg_finish a
    (mk_bv (agg_size srcs)
       (map_imap (fun k _ => to_slot (agg_or_block (blocks_at srcs k))) keys)).

(** Modelled from the spec: [bmaggregator.h], which defines it, is not in the sources.
    [combine_and(target)]: candidate indices: those of the first source. *)
Definition agg_combine_and (a : aggregator) (target : bvector) : bvector :=
  let srcs := agg_sources a in
  let keys := match srcs with [] => ∅ | s :: _ => bv_store s end in
  agg_finish a
    (mk_bv (agg_size srcs)
       (map_imap (fun k _ => to_slot (agg_and_block (blocks_at srcs k))) keys)).

(** The caller-side alternative: pairwise left fold. *)
Definition fold_named (f : bvector -> bvector -> bvector) (srcs : list bvector) : bvector :=
  match srcs with
  | [] => bv_empty
  | s :: rest => fold_left f rest s
  end.

(** ** Combine with a raw array (spec 4.4): [bm::combine_or(bv, first,
    last)] sets the positions of the range one by one into the blocks of
    [bv], in any order; the size is that of the union with the vector the
    array converts to ("as if the array were first converted to a
    vector"); [bm::combine_and] builds a temporary vector from the range
    and intersects. *)
(** Modelled from the spec: [bmalgo.h], which defines it, is not in the sources. *)
Definition combine_or_range (v : bvector) (arr : list nat) : bvector :=
  mk_bv (size_max (bv_size v) (bv_size (bv_of_list arr)))
        (bv_store (fold_left bv_set_bit arr v)).

(** Modelled from the spec: [bmalgo.h], which defines it, is not in the sources. *)
Definition combine_and_range (v : bvector) (arr : list nat) : bvector :=
  bit_and v (combine_or_range bv_empty arr).

(** ** [set(array, count, hint)] (spec 4.2). *)
Inductive sort_mode := BM_SORTED | BM_UNSORTED.

(** Sorted import: one linear pass, collecting the offsets that fall into
    the current block and writing that block once. *)
Definition flush_block (st : gmap nat block) (k : nat) (offs : list nat) : gmap nat block :=
  store_put st k (block_set_bits (blk (st !! k)) offs).

Fixpoint import_run (st : gmap nat block) (k : nat) (offs : list nat) (arr : list nat)
    : gmap nat block :=
  match arr with
  | [] => flush_block st k offs
  | p :: rest =>
      if p / W =? k then import_run st k (p mod W :: offs) rest
      else import_run (flush_block st k offs) (p / W) [p mod W] rest
  end.

(** Modelled from the spec: [bm.h], which defines it, is not in the sources. *)
Definition import_sorted (v : bvector) (arr : list nat) : bvector :=
  match arr with
  | [] => v
  | p :: rest =>
      mk_bv (grow_to (bv_size v) (list_max arr))
            (import_run (bv_store v) (p / W) [p mod W] rest)
  end.

(** Modelled from the spec: [bm.h], which defines it, is not in the sources. *)
Definition bv_set_array (v : bvector) (arr : list nat) (hint : sort_mode) : bvector :=
  match hint with
  | BM_SORTED => import_sorted v arr
  | BM_UNSORTED => fold_left bv_set_bit arr v
  end.

(** ** Observations used in the statements *)

(** Two vectors are equal as BitVectors: same size, same bit everywhere. *)
Definition bv_equiv (v1 v2 : bvector) : Prop :=
  bv_size v1 = bv_size v2 /\ forall p, bv_get v1 p = bv_get v2 p.

(** Every stored block satisfies the block invariant. *)
Definition store_ok (st : gmap nat block) : bool :=
  forallb (fun kb => block_ok (snd kb)) (map_to_list st).

(** No set bit at or beyond a bounded size. *)
Definition bv_wf (v : bvector) : bool :=
  match bv_size v with
  | None => true
  | Some n =>
      forallb (fun kb =>
        forallb (fun i => negb (block_get (snd kb) i) || (fst kb * W + i <? n)) (seq 0 W))
        (map_to_list (bv_store v))
  end.

(** Every set bit lies below a bounded size (the proposition checked by
    [bv_wf]). *)
Definition bits_within (v : bvector) : Prop :=
  forall p, store_get (bv_store v) p = true -> within (bv_size v) p = true.

(** Number of records written for a list of slots. *)
Definition count_nonempty (l : list (nat * block)) : nat :=
  length (List.filter (fun kb => negb (is_empty (snd kb))) l).

End Engine.

(** * The demo's inputs, at a block width of 8 bits *)
Definition demo_A : bvector := bv_of_list 8 [1; 2; 3].
Definition demo_B : bvector := bv_of_list 8 [1; 2; 4].

(** The aggregators of [DemoOR] and [DemoAND]: optimization on, three
    sources added in order. *)
Definition demo_agg_or : aggregator :=
  agg_add (agg_add (agg_add (agg_set_optimization agg_new)
    (bv_of_list 8 [1; 2])) (bv_of_list 8 [2; 3])) (bv_of_list 8 [3; 4]).
Definition demo_agg_and : aggregator :=
  agg_add (agg_add (agg_add (agg_set_optimization agg_new)
    (bv_of_list 8 [1; 2])) (bv_of_list 8 [1; 2; 3])) (bv_of_list 8 [1; 2; 3; 4]).

(** * The demo driver's utilities *)

(** [bm::id_max]: the value [size()] reports for an unbounded vector. *)
Definition id_max : N := 4294967295%N.

(** What [print_bvector] writes: [OutPos p] is ["p, "], [OutMore] is
    [" ..."], [OutSize n] is ["(size = n)"] and the line end. *)
Inductive out_item := OutPos (p : nat) | OutMore | OutSize (n : N).

Section Driver.

Variable W : nat.
Variable gap_limit : nat.

(** [bv.size()]. *)
Definition bv_size_value (v : bvector) : N :=
  match bv_size v with None => id_max | Some n => N.of_nat n end.

(** The loop of [print_bvector]:
    [for (; en.valid() && cnt < 10; ++en, ++cnt) cout << *en << ", ";]
    returns what it printed and the final [cnt]. *)
Fixpoint print_loop (cnt : nat) (en : list nat) : list out_item * nat :=
  match en with
  | [] => ([], cnt)
  | x :: rest =>
      if cnt <? 10 then
        let '(o, c) := print_loop (S cnt) rest in (OutPos x :: o, c)
      else ([], cnt)
  end.

(** [print_bvector(bv)]: the loop over [bv.first()], then [" ..."] when
    [cnt == 10], then the size. *)
Definition print_bvector (v : bvector) : list out_item :=
  let '(o, cnt) := print_loop 0 (bv_enumerate W v) in
  o ++ (if cnt =? 10 then [OutMore] else []) ++ [OutSize (bv_size_value v)].

(** [make_BLOB(target_buf, bv)]: compression level 4, [bv.optimize(tb,
    opt_compress)] in place, then [serialize] and a copy of the buffer into
    [target_buf].  Returns the new [target_buf] and the new state of [bv]. *)
Definition make_BLOB_io (v : bvector) : list nat * bvector :=
  let v' := bv_optimize W gap_limit opt_compress v in
  (serialize W gap_limit 4 v', v').

(** A slot value: either the absent [Empty] block or a block satisfying the
    block invariant. *)
Definition slot_ok (b : block) : bool := is_empty b || block_ok W b.

End Driver.

(** * Proofs *)

Section Proofs.

Variable W : nat.
Hypothesis W_pos : 0 < W.
Variable gap_limit : nat.

(** ** RunList encoding *)

Lemma gap_from_ge (prev : bool) (i : nat) (bits : list bool) (t : nat) :
  In t (gap_from prev i bits) -> i <= t.
Proof.
  revert prev i. induction bits as [|b rest IH]; intros prev i H; simpl in H.
  - contradiction.
  - destruct (Bool.eqb b prev).
    + apply IH in H. lia.
    + destruct H as [H | H]; [lia | apply IH in H; lia].
Qed.

Lemma gap_from_lt (prev : bool) (i : nat) (bits : list bool) (t : nat) :
  In t (gap_from prev i bits) -> t < i + length bits.
Proof.
  revert prev i. induction bits as [|b rest IH]; intros prev i H; simpl in H.
  - contradiction.
  - simpl. destruct (Bool.eqb b prev).
    + apply IH in H. lia.
    + destruct H as [H | H]; [lia | apply IH in H; lia].
Qed.

Lemma filter_le_nil (ts : list nat) (x : nat) :
  (forall t, In t ts -> x < t) -> List.filter (fun t => t <=? x) ts = [].
Proof.
  induction ts as [|t ts IH]; intros H; simpl; [reflexivity|].
  destruct (Nat.leb_spec t x).
  - specialize (H t (or_introl eq_refl)). lia.
  - apply IH. intros u Hu. apply H. now right.
Qed.

Lemma gap_from_test (bits : list bool) (prev : bool) (i j : nat) :
  j < length bits ->
  gap_test (gap_from prev i bits) (i + j) = xorb prev (nth j bits false).
Proof.
  unfold gap_test. revert prev i j.
  induction bits as [|b rest IH]; intros prev i j Hj; simpl in Hj; [lia|].
  destruct j as [|j].
  - rewrite Nat.add_0_r. cbn [gap_from nth].
    assert (Hn : List.filter (fun t => t <=? i) (gap_from b (S i) rest) = []).
    { apply filter_le_nil. intros t Ht. apply gap_from_ge in Ht. lia. }
    destruct (Bool.eqb b prev) eqn:E.
    + rewrite Hn. apply Bool.eqb_prop in E. subst prev. now destruct b.
    + cbn [List.filter]. rewrite Nat.leb_refl. cbn [length]. rewrite Hn.
      destruct b, prev; simpl in *; try congruence; reflexivity.
  - cbn [gap_from nth]. replace (i + S j) with (S i + j) by lia.
    specialize (IH b (S i) j ltac:(lia)).
    destruct (Bool.eqb b prev) eqn:E.
    + apply Bool.eqb_prop in E. subst prev. rewrite IH.
      now destruct b.
    + cbn [List.filter]. destruct (Nat.leb_spec i (S i + j)); [|lia].
      cbn [length]. rewrite Nat.odd_succ, <- Nat.negb_odd, IH.
      destruct b, prev, (nth j rest false); simpl in *; congruence.
Qed.

Lemma gap_of_bits_test (bits : list bool) (j : nat) :
  j < length bits -> gap_test (gap_of_bits bits) j = nth j bits false.
Proof.
  intros Hj. unfold gap_of_bits. apply (gap_from_test bits false 0 j Hj).
Qed.

Lemma gap_from_ascending (prev : bool) (i : nat) (bits : list bool) :
  strictly_ascending (gap_from prev i bits) = true.
Proof.
  revert prev i. induction bits as [|b rest IH]; intros prev i; cbn [gap_from];
    [reflexivity|].
  destruct (Bool.eqb b prev); [apply IH|].
  specialize (IH b (S i)).
  destruct (gap_from b (S i) rest) as [|t ts] eqn:E; [reflexivity|].
  change (strictly_ascending (i :: t :: ts))
    with ((i <? t) && strictly_ascending (t :: ts)).
  rewrite IH, andb_true_r. apply Nat.ltb_lt.
  apply (gap_from_ge b (S i) rest t). rewrite E. now left.
Qed.

(** ** Block content *)

Lemma nth_map_seq {A} (f : nat -> A) (s n i : nat) (d : A) :
  i < n -> nth i (map f (seq s n)) d = f (s + i).
Proof.
  revert s i. induction n as [|n IH]; intros s i Hi; [lia|].
  destruct i as [|i]; simpl.
  - now rewrite Nat.add_0_r.
  - rewrite IH by lia. f_equal. lia.
Qed.

Lemma length_to_bits (b : block) : length (to_bits W b) = W.
Proof. unfold to_bits. now rewrite length_map, length_seq. Qed.

Lemma nth_to_bits (b : block) (i : nat) :
  i < W -> nth i (to_bits W b) false = block_get b i.
Proof. intros Hi. unfold to_bits. now rewrite nth_map_seq. Qed.

Lemma all_zero_nth (bits : list bool) (i : nat) :
  all_zero bits = true -> nth i bits false = false.
Proof.
  unfold all_zero. revert i. induction bits as [|x bits IH]; intros i H;
    destruct i; simpl in *; try reflexivity;
    apply andb_true_iff in H as [H1 H2]; [now destruct x | now apply IH].
Qed.

Lemma all_one_nth (bits : list bool) (i : nat) :
  i < length bits -> all_one bits = true -> nth i bits false = true.
Proof.
  unfold all_one. revert i. induction bits as [|x bits IH]; intros i Hi H;
    simpl in *; [lia|].
  apply andb_true_iff in H as [H1 H2]. destruct i; [exact H1|].
  apply IH; [lia | exact H2].
Qed.

Lemma rebuild_get (b : block) (bits : list bool) (i : nat) :
  length bits = W -> i < W -> block_get (rebuild b bits) i = nth i bits false.
Proof.
  intros Hl Hi. unfold rebuild.
  destruct (all_zero bits) eqn:Z; [simpl; symmetry; now apply all_zero_nth|].
  destruct (all_one bits) eqn:O; [simpl; symmetry; apply all_one_nth; [lia | exact O]|].
  destruct b; simpl; try reflexivity.
  apply gap_of_bits_test. lia.
Qed.

Lemma canon_get (b : block) (i : nat) :
  i < W -> block_get (canon W b) i = block_get b i.
Proof.
  intros Hi. unfold canon. rewrite rebuild_get; [|apply length_to_bits|exact Hi].
  now apply nth_to_bits.
Qed.

Lemma bit_pass_get (f : bool -> bool -> bool) (b1 b2 : block) (i : nat) :
  i < W -> block_get (bit_pass W f b1 b2) i = f (block_get b1 i) (block_get b2 i).
Proof.
  intros Hi. unfold bit_pass.
  rewrite rebuild_get; [| now rewrite length_map, length_seq | exact Hi].
  now rewrite nth_map_seq.
Qed.

(** The table-driven block operation computes the operator bit by bit. *)
Lemma table_block_get (op : operation) (b1 b2 : block) (i : nat) :
  i < W ->
  block_get (table_block W op b1 b2) i = op_bool op (block_get b1 i) (block_get b2 i).
Proof.
  intros Hi.
  destruct op, b1, b2; unfold table_block; simpl;
    try (rewrite bit_pass_get by exact Hi; reflexivity);
    try reflexivity;
    repeat match goal with
           | |- context [nth ?j ?l ?d] => destruct (nth j l d)
           | |- context [gap_test ?l ?j] => destruct (gap_test l j)
           end; reflexivity.
Qed.

(** ** The two entry points of the engine agree block by block *)

Lemma table_block_named (op : operation) (b1 b2 : block) :
  table_block W op b1 b2 =
  match op with
  | BM_OR => block_or W b1 b2
  | BM_AND => block_and W b1 b2
  | BM_SUB => block_sub W b1 b2
  | BM_XOR => block_xor W b1 b2
  end.
Proof. destruct op, b1, b2; reflexivity. Qed.

Lemma store_combine_ext (f g : block -> block -> block) (st1 st2 : gmap nat block) :
  (forall b1 b2, f b1 b2 = g b1 b2) -> store_combine f st1 st2 = store_combine g st1 st2.
Proof.
  intros H. unfold store_combine. apply map_eq. intros k. rewrite !lookup_merge.
  destruct (st1 !! k), (st2 !! k); simpl; rewrite ?H; reflexivity.
Qed.

Lemma bit_named_table (op : operation) (a b : bvector) :
  bit_named W op a b = bv_combine (table_block W op) a b.
Proof.
  destruct op; simpl; unfold bit_or, bit_and, bit_sub, bit_xor, bv_combine; f_equal;
    apply store_combine_ext; intros b1 b2; now rewrite table_block_named.
Qed.

(** ** Stores *)

Lemma blk_to_slot (b : block) : blk (to_slot b) = b.
Proof. now destruct b. Qed.

Lemma mod_lt (p : nat) : p mod W < W.
Proof. apply Nat.mod_upper_bound. lia. Qed.

Lemma op_bool_ff (op : operation) : op_bool op false false = false.
Proof. now destruct op. Qed.

Lemma store_combine_get (f : block -> block -> block) (g : bool -> bool -> bool)
    (st1 st2 : gmap nat block) (p : nat) :
  g false false = false ->
  (forall b1 b2 i, i < W -> block_get (f b1 b2) i = g (block_get b1 i) (block_get b2 i)) ->
  store_get W (store_combine f st1 st2) p = g (store_get W st1 p) (store_get W st2 p).
Proof.
  intros Hg Hf. unfold store_get, store_combine. rewrite lookup_merge.
  pose proof (mod_lt p) as Hi.
  destruct (st1 !! (p / W)), (st2 !! (p / W)); simpl;
    rewrite ?blk_to_slot, ?Hf by exact Hi; simpl; auto.
Qed.

Lemma within_size_max (s1 s2 : option nat) (p : nat) :
  within (size_max s1 s2) p = within s1 p || within s2 p.
Proof.
  destruct s1 as [a|], s2 as [b|]; simpl; rewrite ?orb_true_r; try reflexivity.
  destruct (Nat.ltb_spec p (Nat.max a b)), (Nat.ltb_spec p a), (Nat.ltb_spec p b);
    simpl; try reflexivity; lia.
Qed.

Lemma bit_named_size (op : operation) (a b : bvector) :
  bv_size (bit_named W op a b) = size_max (bv_size a) (bv_size b).
Proof. now destruct op. Qed.

Lemma bit_named_store (op : operation) (a b : bvector) (p : nat) :
  store_get W (bv_store (bit_named W op a b)) p =
  op_bool op (store_get W (bv_store a) p) (store_get W (bv_store b) p).
Proof.
  rewrite bit_named_table. apply store_combine_get; [apply op_bool_ff|].
  intros b1 b2 i Hi. now apply table_block_get.
Qed.

(** ** Optimization keeps every block's content *)

Lemma optimize_block_get (level : nat) (b : block) (i : nat) :
  i < W -> block_get (optimize_block W gap_limit level b) i = block_get b i.
Proof.
  intros Hi. destruct level as [|level]; [reflexivity|].
  unfold optimize_block.
  destruct (all_zero (to_bits W b)) eqn:Z.
  { simpl. rewrite <- (nth_to_bits b i Hi). symmetry. now apply all_zero_nth. }
  destruct (2 <=? S level); [|reflexivity].
  destruct (all_one (to_bits W b)) eqn:O.
  { simpl. rewrite <- (nth_to_bits b i Hi). symmetry.
    apply all_one_nth; [rewrite length_to_bits; exact Hi | exact O]. }
  destruct (3 <=? S level); [|reflexivity].
  destruct (length (gap_of_bits (to_bits W b)) <? gap_limit); simpl.
  - rewrite gap_of_bits_test by (rewrite length_to_bits; exact Hi). now apply nth_to_bits.
  - now apply nth_to_bits.
Qed.

Lemma bv_optimize_store (level : nat) (v : bvector) (p : nat) :
  store_get W (bv_store (bv_optimize W gap_limit level v)) p = store_get W (bv_store v) p.
Proof.
  unfold store_get, bv_optimize. simpl. rewrite map_lookup_imap.
  destruct (bv_store v !! (p / W)); simpl; [|reflexivity].
  rewrite blk_to_slot. apply optimize_block_get, mod_lt.
Qed.

(** ** Setting bits *)

Lemma store_put_lookup (st : gmap nat block) (k j : nat) (b : block) :
  blk (store_put st k b !! j) = if decide (k = j) then b else blk (st !! j).
Proof.
  unfold store_put. destruct b; simpl;
    rewrite ?lookup_delete, ?lookup_insert; case_decide; reflexivity.
Qed.

Lemma block_set_bits_get (b : block) (offs : list nat) (i : nat) :
  i < W -> block_get (block_set_bits W b offs) i = existsb (Nat.eqb i) offs || block_get b i.
Proof.
  intros Hi. destruct b;
    try (simpl; now rewrite orb_true_r);
    unfold block_set_bits; rewrite rebuild_get by (rewrite ?length_map, ?length_seq; lia);
    now rewrite nth_map_seq.
Qed.

Lemma flush_block_get (st : gmap nat block) (k : nat) (offs : list nat) (p : nat) :
  store_get W (flush_block W st k offs) p =
  store_get W st p || ((p / W =? k) && existsb (Nat.eqb (p mod W)) offs).
Proof.
  unfold flush_block, store_get. rewrite store_put_lookup. case_decide as E.
  - subst k. rewrite Nat.eqb_refl, block_set_bits_get by apply mod_lt.
    simpl. apply orb_comm.
  - replace (p / W =? k) with false by (symmetry; apply Nat.eqb_neq; congruence).
    now rewrite orb_false_r.
Qed.

Lemma eq_div_mod (p q : nat) : p = q <-> p / W = q / W /\ p mod W = q mod W.
Proof.
  split; [intros ->; auto|]. intros [H1 H2].
  rewrite (Nat.div_mod p W), (Nat.div_mod q W) by lia. congruence.
Qed.

Lemma set_bit_store (v : bvector) (q p : nat) :
  store_get W (bv_store (bv_set_bit W v q)) p = store_get W (bv_store v) p || (p =? q).
Proof.
  unfold bv_set_bit. simpl. fold (flush_block W (bv_store v) (q / W) [q mod W]).
  rewrite flush_block_get. simpl. rewrite orb_false_r. f_equal.
  destruct (Nat.eqb_spec p q) as [->|Hne].
  - now rewrite !Nat.eqb_refl.
  - destruct (Nat.eqb_spec (p / W) (q / W)), (Nat.eqb_spec (p mod W) (q mod W));
      simpl; try reflexivity.
    exfalso. apply Hne, eq_div_mod. auto.
Qed.

Lemma within_grow_old (sz : option nat) (q p : nat) :
  within sz p = true -> within (grow_to sz q) p = true.
Proof.
  unfold grow_to. destruct (within sz q) eqn:E; [auto|].
  destruct sz as [n|]; simpl in *; [|discriminate].
  rewrite !Nat.ltb_lt. apply Nat.ltb_ge in E. lia.
Qed.

Lemma within_grow_new (sz : option nat) (q p : nat) :
  p <= q -> within (grow_to sz q) p = true.
Proof.
  intros Hpq. unfold grow_to. destruct (within sz q) eqn:E.
  - destruct sz as [n|]; simpl in *; [|reflexivity].
    apply Nat.ltb_lt in E. apply Nat.ltb_lt. lia.
  - simpl. apply Nat.ltb_lt. lia.
Qed.

Lemma bits_within_empty : bits_within W bv_empty.
Proof. intros p _. reflexivity. Qed.

Lemma set_bit_within (v : bvector) (q : nat) :
  bits_within W v -> bits_within W (bv_set_bit W v q).
Proof.
  intros Hv p. rewrite set_bit_store. simpl.
  destruct (store_get W (bv_store v) p) eqn:E; simpl.
  - intros _. apply within_grow_old, Hv, E.
  - intros Hq. apply Nat.eqb_eq in Hq. subst. now apply within_grow_new.
Qed.

Lemma set_bit_get (v : bvector) (q p : nat) :
  bits_within W v -> bv_get W (bv_set_bit W v q) p = bv_get W v p || (p =? q).
Proof.
  intros Hv. unfold bv_get. rewrite set_bit_store. simpl.
  destruct (Nat.eqb_spec p q) as [->|Hne].
  - rewrite !orb_true_r, andb_true_r. now apply within_grow_new.
  - rewrite !orb_false_r. destruct (store_get W (bv_store v) p) eqn:E.
    + rewrite (Hv p E), within_grow_old by (apply Hv, E). reflexivity.
    + now rewrite !andb_false_r.
Qed.

Lemma set_bits_fold (l : list nat) (v : bvector) :
  bits_within W v ->
  bits_within W (fold_left (bv_set_bit W) l v) /\
  (forall p, bv_get W (fold_left (bv_set_bit W) l v) p = bv_get W v p || existsb (Nat.eqb p) l).
Proof.
  revert v. induction l as [|q l IH]; intros v Hv; simpl.
  - split; [exact Hv|]. intros p. now rewrite orb_false_r.
  - destruct (IH (bv_set_bit W v q) (set_bit_within v q Hv)) as [H1 H2].
    split; [exact H1|]. intros p. rewrite H2, set_bit_get by exact Hv.
    now rewrite orb_assoc.
Qed.

Lemma bv_of_list_get (l : list nat) (p : nat) :
  bv_get W (bv_of_list W l) p = existsb (Nat.eqb p) l.
Proof.
  unfold bv_of_list. destruct (set_bits_fold l bv_empty bits_within_empty) as [_ H].
  now rewrite H.
Qed.

Lemma bv_of_list_within (l : list nat) : bits_within W (bv_of_list W l).
Proof. apply (set_bits_fold l bv_empty bits_within_empty). Qed.

Lemma existsb_eqb_In (l : list nat) (p : nat) : existsb (Nat.eqb p) l = true <-> In p l.
Proof.
  rewrite existsb_exists. split.
  - intros [x [Hx E]]. apply Nat.eqb_eq in E. now subst.
  - intros H. exists p. now rewrite Nat.eqb_refl.
Qed.

(** ** Decoding the records the serializer writes *)

Lemma take_words_app (l r : list nat) : take_words (length l) (l ++ r) = Some (l, r).
Proof.
  unfold take_words. rewrite length_app.
  replace (length l <=? length l + length r) with true by (symmetry; apply Nat.leb_le; lia).
  rewrite firstn_app, skipn_app, firstn_all, skipn_all, Nat.sub_diag. simpl.
  now rewrite app_nil_r.
Qed.

Lemma take_words_short (n : nat) (ws : list nat) : length ws < n -> take_words n ws = None.
Proof.
  intros H. unfold take_words.
  replace (n <=? length ws) with false by (symmetry; apply Nat.leb_gt; lia). reflexivity.
Qed.

Lemma bits_words_roundtrip (bits : list bool) :
  map (fun w => negb (w =? 0)) (map Nat.b2n bits) = bits.
Proof. induction bits as [|[] bits IH]; simpl; now rewrite ?IH. Qed.

(** Each non-[Empty] block is written as one record that decodes to a block
    with the same content, and the decoder resumes right after it. *)
Lemma decode_encode (level k : nat) (b : block) :
  b <> Empty ->
  exists b', (forall rest,
      decode_record W (encode_block W gap_limit level k b ++ rest) = RecBlock k b' rest)
    /\ forall i, i < W -> block_get b' i = block_get b i.
Proof.
  intros Hb.
  assert (Hbit : exists b', (forall rest,
      decode_record W (bit_record W k b ++ rest) = RecBlock k b' rest)
    /\ forall i, i < W -> block_get b' i = block_get b i).
  { eexists. split.
    - intros rest. unfold bit_record. simpl.
      rewrite <- (length_to_bits b) at 1. rewrite <- (length_map Nat.b2n (to_bits W b)).
      rewrite take_words_app. reflexivity.
    - intros i Hi. simpl. rewrite bits_words_roundtrip. now apply nth_to_bits. }
  assert (Hgap : forall ts, exists b', (forall rest,
      decode_record W (gap_record k ts ++ rest) = RecBlock k b' rest)
    /\ forall i, i < W -> block_get b' i = block_get (RunList ts) i).
  { intros ts. exists (RunList ts). split; [|reflexivity].
    intros rest. unfold gap_record. simpl. now rewrite take_words_app. }
  destruct b as [| |bits|ts]; [contradiction| | |];
    unfold encode_block; cbv beta iota zeta.
  - exists Full. split; reflexivity.
  - destruct ((4 <=? level) && (length (gap_of_bits (to_bits W (Bitmap bits))) <? gap_limit)).
    + destruct (Hgap (gap_of_bits (to_bits W (Bitmap bits)))) as [b' [H1 H2]].
      exists b'. split; [exact H1|]. intros i Hi. rewrite H2 by exact Hi. simpl.
      rewrite gap_of_bits_test by (rewrite length_to_bits; exact Hi).
      now apply nth_to_bits.
    + exact Hbit.
  - destruct (level =? 0); [exact Hbit | apply Hgap].
Qed.

Lemma encode_block_length (level k : nat) (b : block) :
  b <> Empty -> 1 <= length (encode_block W gap_limit level k b).
Proof.
  intros Hb. destruct b as [| |bits|ts]; simpl; [contradiction|lia| |].
  - destruct (_ && _); simpl; lia.
  - destruct (level =? 0); simpl; lia.
Qed.

(** The streaming loop over a run of records: every record is folded once,
    at its own index, and the loop goes on right after the run. *)
Section Loop.

Variable fold : gmap nat block -> nat -> block -> gmap nat block.
Variable h : bool -> bool -> bool.
Hypothesis fold_other : forall st k b j, k <> j -> fold st k b !! j = st !! j.
Hypothesis fold_self : forall st k b i, i < W ->
  block_get (blk (fold st k b !! k)) i = h (block_get (blk (st !! k)) i) (block_get b i).

Lemma loop_records (level : nat) (l : list (nat * block)) :
  NoDup (map fst l) ->
  forall st seen, exists st' seen',
    (forall fuel ws,
       deser_loop W (count_nonempty l + fuel) fold st seen
         (flat_map (fun kb => encode_block W gap_limit level (fst kb) (snd kb)) l ++ ws)
       = deser_loop W fuel fold st' seen' ws) /\
    (forall j, (forall b, In (j, b) l -> b = Empty) -> st' !! j = st !! j) /\
    (forall j b i, In (j, b) l -> b <> Empty -> i < W ->
       block_get (blk (st' !! j)) i = h (block_get (blk (st !! j)) i) (block_get b i)) /\
    (forall j, j ∈ seen' <-> j ∈ seen \/ exists b, In (j, b) l /\ b <> Empty).
Proof.
  induction l as [|[k0 b0] l IH]; intros Hnd st seen.
  - exists st, seen. simpl. split; [reflexivity|]. split; [reflexivity|].
    split; [contradiction|]. intros j. split; [auto|]. intros [H|[b [[] _]]]. exact H.
  - simpl in Hnd. apply NoDup_cons in Hnd as [Hk0 Hnd].
    rewrite list_elem_of_In in Hk0.
    assert (Hb0 : b0 = Empty \/ b0 <> Empty) by (destruct b0; [left | right..]; congruence).
    destruct Hb0 as [->|Hb0].
    + destruct (IH Hnd st seen) as (st' & seen' & H1 & H2 & H3 & H4).
      exists st', seen'. split; [exact H1|]. split.
      { intros j Hj. apply H2. intros b Hb. apply Hj. now right. }
      split.
      { intros j b i [E|Hin] Hb Hi; [congruence|]. now apply H3. }
      intros j. rewrite H4. split.
      * intros [H|[b [Hin Hb]]]; [now left|right; exists b; split; [now right|exact Hb]].
      * intros [H|[b [[E|Hin] Hb]]]; [now left| congruence | right; eauto].
    + assert (Hc : count_nonempty ((k0, b0) :: l) = S (count_nonempty l))
        by (unfold count_nonempty; destruct b0; [contradiction|reflexivity..]).
      destruct (decode_encode level k0 b0 Hb0) as (b0' & Hdec & Hget).
      destruct (IH Hnd (fold st k0 b0') ({[k0]} ∪ seen)) as (st' & seen' & H1 & H2 & H3 & H4).
      assert (Hnot : forall b, In (k0, b) l -> False).
      { intros b Hin. apply Hk0. apply (in_map fst) in Hin. exact Hin. }
      exists st', seen'. split.
      { intros fuel ws. rewrite Hc. cbn [flat_map fst snd]. rewrite <- app_assoc.
        cbn [Nat.add deser_loop]. rewrite Hdec. apply H1. }
      split.
      { intros j Hj. assert (Hne : k0 <> j).
        { intros <-. apply Hb0, Hj. now left. }
        rewrite H2 by (intros b Hb; apply Hj; now right). now apply fold_other. }
      split.
      { intros j b i [E|Hin] Hb Hi.
        - injection E as <- <-. rewrite H2 by (intros b Hb'; exfalso; eapply Hnot; eauto).
          rewrite fold_self by exact Hi. now rewrite Hget.
        - assert (Hne : k0 <> j).
          { intros <-. eapply Hnot; eauto. }
          rewrite (H3 j b i Hin Hb Hi). now rewrite fold_other. }
      intros j. rewrite H4, elem_of_union, elem_of_singleton. split.
      * intros [[->|H]|[b [Hin Hb]]].
        -- right. exists b0. split; [now left|exact Hb0].
        -- now left.
        -- right. exists b. split; [now right|exact Hb].
      * intros [H|[b [[E|Hin] Hb]]].
        -- left. now right.
        -- injection E as <- <-. left. now left.
        -- right. eauto.
Qed.


Lemma list_fmap_is_map {A B} (f : A -> B) (l : list A) : f <$> l = map f l.
Proof. induction l as [|x l IH]; simpl; [reflexivity|]. now rewrite <- IH. Qed.

Lemma in_map_to_list (m : gmap nat block) (j : nat) (b : block) :
  In (j, b) (map_to_list m) <-> m !! j = Some b.
Proof. rewrite <- list_elem_of_In. apply elem_of_map_to_list. Qed.

Lemma count_nonempty_le (level : nat) (l : list (nat * block)) :
  count_nonempty l <=
  length (flat_map (fun kb => encode_block W gap_limit level (fst kb) (snd kb)) l).
Proof.
  unfold count_nonempty.
  induction l as [|[k b] l IH]; simpl; [lia|]. rewrite length_app.
  destruct b; simpl; try lia.
  - destruct (_ && _); simpl; lia.
  - destruct (level =? 0); simpl; lia.
Qed.

(** The loop over the records of a whole store [m]. *)
Lemma loop_store (level : nat) (m : gmap nat block) (st : gmap nat block) (seen : gset nat) :
  exists st' seen',
    (forall fuel ws,
       deser_loop W (count_nonempty (map_to_list m) + fuel) fold st seen
         (flat_map (fun kb => encode_block W gap_limit level (fst kb) (snd kb)) (map_to_list m) ++ ws)
       = deser_loop W fuel fold st' seen' ws) /\
    (forall j i, i < W ->
       block_get (blk (st' !! j)) i =
       if is_empty (blk (m !! j)) then block_get (blk (st !! j)) i
       else h (block_get (blk (st !! j)) i) (block_get (blk (m !! j)) i)) /\
    (forall j, j ∈ seen' <-> j ∈ seen \/ is_empty (blk (m !! j)) = false).
Proof.
  assert (Hnd : NoDup (map fst (map_to_list m))).
  { rewrite <- list_fmap_is_map. apply NoDup_fst_map_to_list. }
  destruct (loop_records level (map_to_list m) Hnd st seen) as (st' & seen' & H1 & H2 & H3 & H4).
  exists st', seen'. split; [exact H1|]. split.
  - intros j i Hi. destruct (m !! j) as [b|] eqn:E; simpl.
    + destruct (is_empty b) eqn:Eb.
      * rewrite H2; [reflexivity|]. intros b' Hin. apply in_map_to_list in Hin.
        rewrite E in Hin. injection Hin as <-. now destruct b.
      * apply H3; [now apply in_map_to_list | now destruct b | exact Hi].
    + rewrite H2; [reflexivity|]. intros b' Hin. apply in_map_to_list in Hin. congruence.
  - intros j. rewrite H4. split; intros [H|H]; auto; right.
    + destruct H as [b [Hin Hb]]. apply in_map_to_list in Hin. rewrite Hin. now destruct b.
    + destruct (m !! j) as [b|] eqn:E; simpl in H; [|discriminate].
      exists b. split; [now apply in_map_to_list|]. now destruct b.
Qed.

End Loop.

Lemma store_put_other (st : gmap nat block) (k j : nat) (b : block) :
  k <> j -> store_put st k b !! j = st !! j.
Proof.
  intros Hne. unfold store_put. destruct b; simpl;
    [apply lookup_delete_ne | apply lookup_insert_ne ..]; exact Hne.
Qed.

Lemma store_set_other (st : gmap nat block) (k : nat) (b : block) (j : nat) :
  k <> j -> store_set W st k b !! j = st !! j.
Proof. apply store_put_other. Qed.

Lemma store_set_self (st : gmap nat block) (k : nat) (b : block) (i : nat) :
  i < W -> block_get (blk (store_set W st k b !! k)) i = block_get b i.
Proof.
  intros Hi. unfold store_set. rewrite store_put_lookup. rewrite decide_True by reflexivity.
  now apply canon_get.
Qed.

Lemma deser_fold_self (op : operation) (st : gmap nat block) (k : nat) (b : block) (i : nat) :
  i < W -> block_get (blk (deser_fold W op st k b !! k)) i =
           op_bool op (block_get (blk (st !! k)) i) (block_get b i).
Proof. intros Hi. unfold deser_fold. rewrite store_set_self by exact Hi. now apply table_block_get. Qed.

Lemma size_code_roundtrip (sz : option nat) : size_of_code (size_code sz) = sz.
Proof. now destruct sz. Qed.

Lemma encode_records_fuel (level : nat) (v : bvector) :
  exists fuel, S (length (encode_records W gap_limit level v ++ [tag_end]))
             = count_nonempty (map_to_list (bv_store v)) + S fuel.
Proof.
  pose proof (count_nonempty_le level (map_to_list (bv_store v))) as H.
  unfold encode_records. rewrite length_app. cbn [length].
  exists (length (flat_map (fun kb => encode_block W gap_limit level (fst kb) (snd kb))
                    (map_to_list (bv_store v))) - count_nonempty (map_to_list (bv_store v)) + 1).
  lia.
Qed.

(** Decoding a serialized vector gives back its size and every bit. *)
Lemma decode_serialize (level : nat) (v : bvector) :
  exists st', bv_decode W (serialize W gap_limit level v) = DeserOk (mk_bv (bv_size v) st')
            /\ forall p, store_get W st' p = store_get W (bv_store v) p.
Proof.
  destruct (loop_store (store_set W) (fun _ y => y) store_set_other store_set_self
              level (bv_store v) ∅ ∅) as (st' & seen' & H1 & H2 & _).
  exists st'. split.
  - unfold bv_decode, serialize. cbn [decode_header]. rewrite Nat.eqb_refl, size_code_roundtrip.
    destruct (encode_records_fuel level v) as [fuel ->].
    unfold encode_records. rewrite H1. reflexivity.
  - intros p. unfold store_get. rewrite H2 by apply mod_lt.
    destruct (is_empty (blk (bv_store v !! (p / W)))) eqn:E; [|reflexivity].
    rewrite lookup_empty. destruct (blk (bv_store v !! (p / W))); easy.
Qed.

(** Deserializing with an operation gives the union-like size and, at every
    position, the operator applied to the destination and the source. *)
Lemma op_deserialize_serialize (dst v : bvector) (level : nat) (op : operation) :
  exists r, op_deserialize W dst (serialize W gap_limit level v) op = DeserOk r
          /\ bv_size r = size_max (bv_size dst) (bv_size v)
          /\ forall p, store_get W (bv_store r) p =
                     op_bool op (store_get W (bv_store dst) p) (store_get W (bv_store v) p).
Proof.
  destruct (loop_store (deser_fold W op) (op_bool op) (fun st k b j => store_set_other st k _ j)
              (deser_fold_self op) level (bv_store v) (bv_store dst) ∅)
    as (st' & seen' & H1 & H2 & H3).
  unfold op_deserialize, serialize. cbn [decode_header]. rewrite Nat.eqb_refl, size_code_roundtrip.
  destruct (encode_records_fuel level v) as [fuel ->].
  unfold encode_records. rewrite H1. cbn [deser_loop decode_record]. rewrite Nat.eqb_refl.
  eexists. split; [reflexivity|]. split; [reflexivity|].
  intros p. unfold store_get. pose proof (mod_lt p) as Hi.
  set (j := p / W). set (i := p mod W). fold j i in Hi.
  destruct op; simpl;
    try (rewrite H2 by exact Hi;
         destruct (is_empty (blk (bv_store v !! j))) eqn:E; [|reflexivity];
         destruct (blk (bv_store v !! j)); try discriminate; simpl;
         destruct (block_get (blk (bv_store dst !! j)) i); reflexivity).
  unfold clear_unseen. rewrite map_lookup_imap.
  destruct (is_empty (blk (bv_store v !! j))) eqn:E.
  - assert (Hn : j ∉ seen') by (rewrite H3; intros [Hc|Hc]; [set_solver|congruence]).
    destruct (st' !! j) as [b|] eqn:Est; simpl; [rewrite decide_False by exact Hn|];
      destruct (blk (bv_store v !! j)); try discriminate; simpl; now rewrite andb_false_r.
  - assert (Hn : j ∈ seen') by (rewrite H3; auto).
    specialize (H2 j i Hi). rewrite E in H2. cbn [op_bool] in H2. rewrite <- H2.
    destruct (st' !! j) as [b|]; simpl; [rewrite decide_True by exact Hn|]; reflexivity.
Qed.

Lemma bv_wf_within (v : bvector) : bv_wf W v = true -> bits_within W v.
Proof.
  unfold bv_wf, bits_within. destruct (bv_size v) as [n|]; [|reflexivity].
  intros H p Hp. rewrite forallb_forall in H. unfold store_get in Hp.
  destruct (bv_store v !! (p / W)) as [b|] eqn:E; simpl in Hp; [|discriminate].
  specialize (H (p / W, b) (proj2 (in_map_to_list _ _ _) E)).
  rewrite forallb_forall in H.
  specialize (H (p mod W) (proj2 (in_seq _ _ _) (conj (Nat.le_0_l _) (mod_lt p)))).
  simpl in H. rewrite Hp in H. simpl in H. apply Nat.ltb_lt in H. apply Nat.ltb_lt.
  rewrite (Nat.div_mod p W) at 1 by lia. rewrite Nat.mul_comm. exact H.
Qed.

Lemma bv_get_named (op : operation) (a b : bvector) (p : nat) :
  bv_get W (bit_named W op a b) p =
  within (size_max (bv_size a) (bv_size b)) p
  && op_bool op (store_get W (bv_store a) p) (store_get W (bv_store b) p).
Proof. unfold bv_get. now rewrite bit_named_size, bit_named_store. Qed.

Lemma set_bits_size_none (l : list nat) (v : bvector) :
  bv_size v = None -> bv_size (fold_left (bv_set_bit W) l v) = None.
Proof.
  revert v. induction l as [|q l IH]; intros v Hv; simpl; [exact Hv|].
  apply IH. simpl. unfold grow_to. now rewrite Hv.
Qed.

Lemma bv_of_list_size (l : list nat) : bv_size (bv_of_list W l) = None.
Proof. now apply set_bits_size_none. Qed.

Lemma of_list_store (l : list nat) (p : nat) :
  store_get W (bv_store (bv_of_list W l)) p = existsb (Nat.eqb p) l.
Proof.
  rewrite <- bv_of_list_get. unfold bv_get. now rewrite bv_of_list_size.
Qed.

(** *** Aggregator *)

Lemma existsb_perm {A} (f : A -> bool) (l1 l2 : list A) :
  Permutation l1 l2 -> existsb f l1 = existsb f l2.
Proof.
  induction 1; simpl; try congruence.
  destruct (f x), (f y); reflexivity.
Qed.

Lemma forallb_perm {A} (f : A -> bool) (l1 l2 : list A) :
  Permutation l1 l2 -> forallb f l1 = forallb f l2.
Proof.
  induction 1; simpl; try congruence.
  destruct (f x), (f y); reflexivity.
Qed.

Lemma existsb_map_blk {A} (f : block -> bool) (g : A -> block) (l : list A) :
  existsb f (map g l) = existsb (fun x => f (g x)) l.
Proof. induction l; simpl; congruence. Qed.

Lemma forallb_map_blk {A} (f : block -> bool) (g : A -> block) (l : list A) :
  forallb f (map g l) = forallb (fun x => f (g x)) l.
Proof. induction l; simpl; congruence. Qed.

Lemma agg_or_block_get (bs : list block) (i : nat) :
  i < W -> block_get (agg_or_block W bs) i = existsb (fun b => block_get b i) bs.
Proof.
  intros Hi. unfold agg_or_block. destruct (existsb is_full bs) eqn:EF.
  - symmetry. apply existsb_exists in EF as [b [Hb Hf]]. apply existsb_exists.
    exists b. destruct b; try discriminate. split; [exact Hb | reflexivity].
  - assert (Hf : existsb (fun b => block_get b i) bs
                 = existsb (fun b => block_get b i) (List.filter (fun b => negb (is_empty b)) bs)).
    { induction bs as [|b bs IH]; [reflexivity|].
      destruct b; simpl in EF |- *; try discriminate; rewrite IH by exact EF; reflexivity. }
    rewrite Hf. destruct (List.filter (fun b => negb (is_empty b)) bs) as [|b [|b2 rest]].
    + reflexivity.
    + simpl. now rewrite orb_false_r.
    + rewrite rebuild_get by (rewrite ?length_map, ?length_seq; auto).
      rewrite nth_map_seq by exact Hi. reflexivity.
Qed.

Lemma agg_and_block_get (bs : list block) (i : nat) :
  i < W -> block_get (agg_and_block W bs) i = forallb (fun b => block_get b i) bs.
Proof.
  intros Hi. unfold agg_and_block. destruct (existsb is_empty bs) eqn:EE.
  - symmetry. apply existsb_exists in EE as [b [Hb He]].
    apply not_true_iff_false. rewrite forallb_forall. intros H.
    specialize (H b Hb). destruct b; discriminate.
  - assert (Hf : forallb (fun b => block_get b i) bs
                 = forallb (fun b => block_get b i) (List.filter (fun b => negb (is_full b)) bs)).
    { induction bs as [|b bs IH]; [reflexivity|].
      destruct b; simpl in EE |- *; try discriminate; rewrite IH by exact EE; reflexivity. }
    rewrite Hf. destruct (List.filter (fun b => negb (is_full b)) bs) as [|b [|b2 rest]].
    + reflexivity.
    + simpl. now rewrite andb_true_r.
    + rewrite rebuild_get by (rewrite ?length_map, ?length_seq; auto).
      rewrite nth_map_seq by exact Hi. reflexivity.
Qed.

Lemma agg_or_store (srcs : list bvector) (p : nat) :
  store_get W (map_imap (fun k _ => to_slot (agg_or_block W (blocks_at srcs k)))
                        (foldr (fun v acc => bv_store v ∪ acc) ∅ srcs)) p
  = existsb (fun v => store_get W (bv_store v) p) srcs.
Proof.
  unfold store_get at 1. rewrite map_lookup_imap.
  destruct (foldr (fun v acc => bv_store v ∪ acc) ∅ srcs !! (p / W)) eqn:E; simpl.
  - rewrite blk_to_slot, agg_or_block_get by apply mod_lt.
    unfold blocks_at. now rewrite existsb_map_blk.
  - induction srcs as [|v srcs IH]; [reflexivity|].
    simpl in E. apply lookup_union_None in E as [E1 E2].
    simpl. unfold store_get at 1. rewrite E1. simpl. apply IH, E2.
Qed.

Lemma agg_and_store (s : bvector) (rest : list bvector) (p : nat) :
  store_get W (map_imap (fun k _ => to_slot (agg_and_block W (blocks_at (s :: rest) k)))
                        (bv_store s)) p
  = forallb (fun v => store_get W (bv_store v) p) (s :: rest).
Proof.
  unfold store_get at 1. rewrite map_lookup_imap.
  destruct (bv_store s !! (p / W)) eqn:E; simpl.
  - rewrite blk_to_slot, agg_and_block_get by apply mod_lt.
    cbn [forallb]. f_equal. apply forallb_map_blk.
  - unfold store_get at 1. now rewrite E.
Qed.

Lemma agg_finish_equiv (a : aggregator) (v : bvector) :
  bv_equiv W (agg_finish W gap_limit a v) v.
Proof.
  unfold agg_finish. destruct (agg_optimize a); [|split; reflexivity].
  split; [reflexivity|]. intros p. unfold bv_get. now rewrite bv_optimize_store.
Qed.

Lemma bv_equiv_trans (u v w : bvector) :
  bv_equiv W u v -> bv_equiv W v w -> bv_equiv W u w.
Proof. intros [H1 H2] [H3 H4]. split; [congruence|]. intros p. congruence. Qed.

Lemma size_max_unit_r (s : option nat) : size_max s (Some 0) = s.
Proof. destruct s; simpl; [rewrite Nat.max_0_r|]; reflexivity. Qed.

Lemma size_max_assoc (a b c : option nat) :
  size_max a (size_max b c) = size_max (size_max a b) c.
Proof. destruct a, b, c; simpl; [rewrite Nat.max_assoc|..]; reflexivity. Qed.

Lemma size_max_comm (a b : option nat) : size_max a b = size_max b a.
Proof. destruct a, b; simpl; [rewrite Nat.max_comm|..]; reflexivity. Qed.

Lemma fold_size_right (l : list bvector) (acc : option nat) :
  fold_left (fun acc v => size_max acc (bv_size v)) l acc
  = size_max acc (fold_right size_max (Some 0) (map bv_size l)).
Proof.
  revert acc. induction l as [|v l IH]; intros acc; simpl.
  - now rewrite size_max_unit_r.
  - rewrite IH. now rewrite size_max_assoc.
Qed.

Lemma fold_right_size_perm (l1 l2 : list (option nat)) :
  Permutation l1 l2 -> fold_right size_max (Some 0) l1 = fold_right size_max (Some 0) l2.
Proof.
  induction 1; simpl; try congruence.
  now rewrite !size_max_assoc, (size_max_comm y x).
Qed.

Lemma fold_named_size (op : operation) (l : list bvector) (s : bvector) :
  bv_size (fold_left (bit_named W op) l s)
  = fold_left (fun acc v => size_max acc (bv_size v)) l (bv_size s).
Proof.
  revert s. induction l as [|v l IH]; intros s; simpl; [reflexivity|].
  now rewrite IH, bit_named_size.
Qed.

Lemma fold_or_store (l : list bvector) (s : bvector) (p : nat) :
  store_get W (bv_store (fold_left (bit_named W BM_OR) l s)) p
  = existsb (fun v => store_get W (bv_store v) p) (s :: l).
Proof.
  revert s. induction l as [|v l IH]; intros s; cbn [fold_left existsb forallb];
    [now rewrite orb_false_r|].
  rewrite IH. cbn [existsb forallb]. rewrite bit_named_store. cbn [op_bool]. now rewrite orb_assoc.
Qed.

Lemma fold_and_store (l : list bvector) (s : bvector) (p : nat) :
  store_get W (bv_store (fold_left (bit_named W BM_AND) l s)) p
  = forallb (fun v => store_get W (bv_store v) p) (s :: l).
Proof.
  revert s. induction l as [|v l IH]; intros s; cbn [fold_left existsb forallb];
    [now rewrite andb_true_r|].
  rewrite IH. cbn [existsb forallb]. rewrite bit_named_store. cbn [op_bool]. now rewrite andb_assoc.
Qed.

Lemma fold_named_size_perm (op : operation) (s s' : bvector) (rest rest' : list bvector) :
  Permutation (s :: rest) (s' :: rest') ->
  bv_size (fold_left (bit_named W op) rest s) = bv_size (fold_left (bit_named W op) rest' s').
Proof.
  intros H. rewrite !fold_named_size, !fold_size_right.
  exact (fold_right_size_perm _ _ (Permutation_map bv_size H)).
Qed.

(** *** Arrays: [combine_or] / [combine_and] with a range *)

Lemma set_bits_store (l : list nat) (v : bvector) (p : nat) :
  store_get W (bv_store (fold_left (bv_set_bit W) l v)) p
  = store_get W (bv_store v) p || existsb (Nat.eqb p) l.
Proof.
  revert v. induction l as [|q l IH]; intros v; cbn [fold_left existsb].
  - now rewrite orb_false_r.
  - rewrite IH, set_bit_store. now rewrite orb_assoc.
Qed.

Lemma combine_or_range_size (A : bvector) (arr : list nat) :
  bv_size (combine_or_range W A arr) = None.
Proof. unfold combine_or_range. simpl. rewrite bv_of_list_size. now destruct (bv_size A). Qed.

Lemma combine_or_range_get (A : bvector) (arr : list nat) (p : nat) :
  bv_get W (combine_or_range W A arr) p = store_get W (bv_store A) p || existsb (Nat.eqb p) arr.
Proof.
  unfold bv_get. rewrite combine_or_range_size. cbn [within combine_or_range bv_store].
  apply set_bits_store.
Qed.

Lemma combine_or_range_empty (arr : list nat) :
  combine_or_range W bv_empty arr = bv_of_list W arr.
Proof.
  unfold combine_or_range. rewrite bv_of_list_size.
  change (fold_left (bv_set_bit W) arr bv_empty) with (bv_of_list W arr).
  pose proof (bv_of_list_size arr) as Hs. destruct (bv_of_list W arr) as [sz st].
  cbn [bv_size bv_store] in *. now subst.
Qed.

Lemma existsb_same (l l' : list nat) (q : nat) :
  (forall p, In p l <-> In p l') -> existsb (Nat.eqb q) l = existsb (Nat.eqb q) l'.
Proof. intros Hs. apply eq_true_iff_eq. rewrite !existsb_eqb_In. apply Hs. Qed.

(** *** Sorted import *)

Lemma eqb_div_mod (p q : nat) : (p / W =? q / W) && (p mod W =? q mod W) = (p =? q).
Proof.
  destruct (Nat.eqb_spec p q) as [->|Hne]; [now rewrite !Nat.eqb_refl|].
  destruct (Nat.eqb_spec (p / W) (q / W)), (Nat.eqb_spec (p mod W) (q mod W)); try reflexivity.
  exfalso. apply Hne, eq_div_mod. auto.
Qed.

Lemma import_run_get (arr : list nat) (st : gmap nat block) (k : nat) (offs : list nat) (p : nat) :
  store_get W (import_run W st k offs arr) p =
  store_get W st p || ((p / W =? k) && existsb (Nat.eqb (p mod W)) offs)
  || existsb (Nat.eqb p) arr.
Proof.
  revert st k offs. induction arr as [|q arr IH]; intros st k offs; cbn [import_run existsb].
  - now rewrite flush_block_get, orb_false_r.
  - destruct (Nat.eqb_spec (q / W) k) as [<-|Hne].
    + rewrite IH. cbn [existsb]. rewrite <- (eqb_div_mod p q). btauto.
    + rewrite IH, flush_block_get. cbn [existsb]. rewrite orb_false_r, <- (eqb_div_mod p q). btauto.
Qed.

Lemma in_le_list_max (l : list nat) (x : nat) : In x l -> x <= list_max l.
Proof.
  intros Hx. pose proof (proj1 (list_max_le l (list_max l)) (le_n _)) as H.
  rewrite Forall_forall in H. apply H. now apply list_elem_of_In.
Qed.

Lemma import_sorted_get (v : bvector) (arr : list nat) (p : nat) :
  bits_within W v ->
  bv_get W (import_sorted W v arr) p = bv_get W v p || existsb (Nat.eqb p) arr.
Proof.
  intros Hv. destruct arr as [|q rest]; [simpl; now rewrite orb_false_r|].
  unfold import_sorted, bv_get. cbn [bv_size bv_store]. rewrite import_run_get.
  cbn [existsb]. rewrite orb_false_r, eqb_div_mod.
  destruct (store_get W (bv_store v) p) eqn:Es.
  - rewrite (within_grow_old _ _ _ (Hv p Es)), (Hv p Es). reflexivity.
  - rewrite andb_false_r. cbn [orb].
    destruct ((p =? q) || existsb (Nat.eqb p) rest) eqn:Ein; [|apply andb_false_r].
    rewrite andb_true_r. apply within_grow_new, in_le_list_max.
    apply existsb_eqb_In. exact Ein.
Qed.

(** *** Block invariants through deserialization *)

Lemma store_ok_spec (st : gmap nat block) :
  store_ok W st = true <-> forall k b, st !! k = Some b -> block_ok W b = true.
Proof.
  unfold store_ok. rewrite forallb_forall. split.
  - intros H k b Hk. apply (H (k, b)), in_map_to_list, Hk.
  - intros H [k b] Hin. apply in_map_to_list in Hin. exact (H k b Hin).
Qed.

Lemma to_bits_gap (bits : list bool) :
  length bits = W -> to_bits W (RunList (gap_of_bits bits)) = bits.
Proof.
  intros Hl. unfold to_bits. apply nth_ext with (d := false) (d' := false).
  - now rewrite length_map, length_seq.
  - intros i Hi. rewrite length_map, length_seq in Hi.
    rewrite nth_map_seq by exact Hi. simpl. apply gap_of_bits_test. lia.
Qed.

Lemma canon_ok (b : block) : canon W b <> Empty -> block_ok W (canon W b) = true.
Proof.
  unfold canon, rebuild.
  destruct (all_zero (to_bits W b)) eqn:Z; [congruence|].
  destruct (all_one (to_bits W b)) eqn:O; [reflexivity|]. intros _.
  destruct b as [| |bits|ts]; cbn [block_ok];
    try (now rewrite length_to_bits, Nat.eqb_refl, Z, O).
  assert (A1 : strictly_ascending (gap_of_bits (to_bits W (RunList ts))) = true)
    by apply gap_from_ascending.
  assert (A2 : forallb (fun t => t <? W) (gap_of_bits (to_bits W (RunList ts))) = true).
  { apply forallb_forall. intros t Ht. apply Nat.ltb_lt. apply gap_from_lt in Ht.
    rewrite length_to_bits in Ht. lia. }
  now rewrite A1, A2, to_bits_gap, Z, O by apply length_to_bits.
Qed.

Lemma store_set_ok (st : gmap nat block) (k : nat) (b : block) :
  store_ok W st = true -> store_ok W (store_set W st k b) = true.
Proof.
  rewrite !store_ok_spec. intros H j c Hj. unfold store_set, store_put in Hj.
  destruct (to_slot (canon W b)) as [c'|] eqn:Ec.
  - apply lookup_insert_Some in Hj as [[-> <-]|[_ Hj]]; [|eauto].
    assert (Hc : canon W b = c' /\ canon W b <> Empty)
      by (destruct (canon W b); inversion Ec; split; congruence).
    destruct Hc as [<- Hne]. now apply canon_ok.
  - apply lookup_delete_Some in Hj as [_ Hj]. eauto.
Qed.

Lemma store_ok_deser_fold (op : operation) (st : gmap nat block) (k : nat) (b : block) :
  store_ok W st = true -> store_ok W (deser_fold W op st k b) = true.
Proof. apply store_set_ok. Qed.

Lemma store_ok_clear (seen : gset nat) (st : gmap nat block) :
  store_ok W st = true -> store_ok W (clear_unseen seen st) = true.
Proof.
  rewrite !store_ok_spec. intros H j b Hj. unfold clear_unseen in Hj.
  rewrite map_lookup_imap in Hj. destruct (st !! j) as [c|] eqn:E; simpl in Hj; [|discriminate].
  case_decide; [|discriminate]. inversion Hj. subst. eauto.
Qed.

Lemma loop_ok (fold : gmap nat block -> nat -> block -> gmap nat block)
    (fold_ok : forall st k b, store_ok W st = true -> store_ok W (fold st k b) = true)
    (fuel : nat) (st : gmap nat block) (seen : gset nat) (ws : list nat) :
  store_ok W st = true ->
  match deser_loop W fuel fold st seen ws with
  | inl (st', _) => store_ok W st' = true
  | inr (st', _) => store_ok W st' = true
  end.
Proof.
  revert st seen ws. induction fuel as [|fuel IH]; intros st seen ws Hst; simpl; [exact Hst|].
  destruct (decode_record W ws); [exact Hst | apply IH, fold_ok, Hst | exact Hst].
Qed.

Lemma op_deserialize_ok (D : bvector) (ws : list nat) (op : operation) :
  store_ok W (bv_store D) = true ->
  match op_deserialize W D ws op with
  | DeserOk v => store_ok W (bv_store v) = true
  | DeserFail v _ => store_ok W (bv_store v) = true
  end.
Proof.
  intros Hok. unfold op_deserialize.
  destruct (decode_header ws) as [[sz body]|e]; [|exact Hok].
  pose proof (loop_ok (deser_fold W op) (store_ok_deser_fold op) (S (length body))
                (bv_store D) ∅ body Hok) as HL.
  destruct (deser_loop W (S (length body)) (deser_fold W op) (bv_store D) ∅ body)
    as [[st seen]|[st e]]; simpl; [|exact HL].
  destruct op; try exact HL. now apply store_ok_clear.
Qed.

(** *** Truncated buffers *)

Lemma take_words_none (n : nat) (ws : list nat) : length ws < n -> take_words n ws = None.
Proof. intros H. unfold take_words. destruct (Nat.leb_spec n (length ws)); [lia | reflexivity]. Qed.

Lemma encode_prefix (level k : nat) (b : block) (n : nat) :
  n < length (encode_block W gap_limit level k b) ->
  decode_record W (firstn n (encode_block W gap_limit level k b)) = RecError Truncated.
Proof.
  assert (Hbit : n < length (bit_record W k b) ->
                 decode_record W (firstn n (bit_record W k b)) = RecError Truncated).
  { unfold bit_record. cbn [length]. rewrite length_map, length_to_bits. intros Hn.
    destruct n as [|[|m]]; [reflexivity | reflexivity |].
    cbn [firstn decode_record]. rewrite take_words_none; [reflexivity|].
    rewrite length_firstn, length_map, length_to_bits. lia. }
  assert (Hgap : forall ts, n < length (gap_record k ts) ->
                 decode_record W (firstn n (gap_record k ts)) = RecError Truncated).
  { intros ts. unfold gap_record. cbn [length]. intros Hn.
    destruct n as [|[|[|m]]]; try reflexivity.
    cbn [firstn decode_record]. rewrite (take_words_none (length ts)); [reflexivity|].
    rewrite length_firstn. lia. }
  destruct b as [| |bits|ts]; unfold encode_block; cbv beta iota zeta.
  - simpl. lia.
  - intros Hn. destruct n as [|[|n]]; [reflexivity | reflexivity | simpl in Hn; lia].
  - destruct (_ && _); auto.
  - destruct (level =? 0); auto.
Qed.

Lemma block_eq_Empty (b : block) : {b = Empty} + {b <> Empty}.
Proof. destruct b; [left; reflexivity | right; discriminate ..]. Qed.

Lemma loop_trunc (fold : gmap nat block -> nat -> block -> gmap nat block) (level : nat)
    (l : list (nat * block)) (n fuel : nat) (st : gmap nat block) (seen : gset nat) :
  n < length (flat_map (fun kb => encode_block W gap_limit level (fst kb) (snd kb)) l ++ [tag_end]) ->
  exists st', deser_loop W fuel fold st seen
    (firstn n (flat_map (fun kb => encode_block W gap_limit level (fst kb) (snd kb)) l ++ [tag_end]))
    = inr (st', Truncated).
Proof.
  revert n fuel st seen. induction l as [|[k b] l IH]; intros n fuel st seen Hn.
  - simpl in Hn. replace n with 0 by lia. exists st. destruct fuel; reflexivity.
  - cbn [flat_map fst snd] in *. rewrite <- app_assoc in *.
    destruct (block_eq_Empty b) as [->|Hb].
    { apply IH. exact Hn. }
    destruct fuel as [|fuel]; [exists st; reflexivity|].
    rewrite length_app in Hn.
    destruct (Nat.lt_ge_cases n (length (encode_block W gap_limit level k b))) as [Hlt|Hge].
    + rewrite firstn_app. replace (n - _) with 0 by lia. rewrite firstn_O, app_nil_r.
      cbn [deser_loop]. rewrite encode_prefix by exact Hlt. eexists. reflexivity.
    + destruct (decode_encode level k b Hb) as [b' [Hd _]].
      rewrite firstn_app, firstn_all2 by exact Hge.
      cbn [deser_loop]. rewrite Hd. apply IH. lia.
Qed.

(** ** Claims *)

(** C1.  Deserialize-with-operation equals decode-then-combine: for every
    destination [D], source [S], compression level and operation code,
    [deserialize(D, serialize(S), op)] succeeds with a vector equal (size and
    every position) to [D.op(S')] where [S'] is the fully decoded buffer, and
    also to [D.op(S)]. *)
Theorem deserialize_op_equiv (D S : bvector) (level : nat) (op : operation) :
  exists D' S',
    op_deserialize W D (serialize W gap_limit level S) op = DeserOk D'
    /\ bv_decode W (serialize W gap_limit level S) = DeserOk S'
    /\ bv_equiv W D' (bit_named W op D S')
    /\ bv_equiv W D' (bit_named W op D S).
Proof.
  destruct (op_deserialize_serialize D S level op) as (r & Hr & Hs & Hst).
  destruct (decode_serialize level S) as (st' & Hd & Hst').
  exists r, (mk_bv (bv_size S) st').
  split; [exact Hr|]. split; [exact Hd|].
  split; split; rewrite ?bit_named_size; try exact Hs;
    intros p; rewrite bv_get_named; unfold bv_get; rewrite Hs, Hst; simpl; rewrite ?Hst';
    reflexivity.
Qed.

(** C2.  Round trip: for every vector [V] and compression levels [L1], [L2],
    decoding [serialize(V, L1)] with no operation succeeds with a vector equal
    to [V] (same size, same bit at every position), and the vectors decoded
    from the two levels are equal: the content does not depend on the
    level. *)
Theorem serialize_roundtrip (V : bvector) (L1 L2 : nat) :
  exists V1 V2,
    bv_decode W (serialize W gap_limit L1 V) = DeserOk V1
    /\ bv_decode W (serialize W gap_limit L2 V) = DeserOk V2
    /\ bv_equiv W V1 V /\ bv_equiv W V1 V2.
Proof.
  destruct (decode_serialize L1 V) as (st1 & H1 & E1).
  destruct (decode_serialize L2 V) as (st2 & H2 & E2).
  exists (mk_bv (bv_size V) st1), (mk_bv (bv_size V) st2).
  split; [exact H1|]. split; [exact H2|].
  split; split; try reflexivity; intros p; unfold bv_get; simpl; now rewrite ?E1, ?E2.
Qed.

(** C3.  Size growth: when the sizes of [A] and [B] differ, [A.op(B)] has the
    larger size (an unbounded size is the largest) for every operation code,
    AND included; and AND adds no set bit that is not set in both operands. *)
Theorem size_growth (A B : bvector) (op : operation) :
  bv_size A <> bv_size B ->
  bv_size (bit_named W op A B) = size_max (bv_size A) (bv_size B)
  /\ (bv_wf W A = true -> bv_wf W B = true -> forall p,
        bv_get W (bit_named W BM_AND A B) p = true ->
        bv_get W A p = true /\ bv_get W B p = true).
Proof.
  intros _. split; [apply bit_named_size|].
  intros HA HB p. apply bv_wf_within in HA, HB.
  rewrite bv_get_named. unfold bv_get. simpl.
  destruct (store_get W (bv_store A) p) eqn:EA, (store_get W (bv_store B) p) eqn:EB;
    rewrite ?andb_false_r; try discriminate.
  intros _. now rewrite (HA p EA), (HB p EB).
Qed.

(** C4.  Demo scenario 1: with [A = {1,2,3}] and [B = {1,2,4}],
    [A.bit_or(B)] is exactly [{1,2,3,4}] and [A.bit_and(B)] exactly [{1,2}]. *)
Theorem demo_or_and_sets :
  (forall p, bv_get W (bit_or W (bv_of_list W [1; 2; 3]) (bv_of_list W [1; 2; 4])) p = true
             <-> In p [1; 2; 3; 4])
  /\ (forall p, bv_get W (bit_and W (bv_of_list W [1; 2; 3]) (bv_of_list W [1; 2; 4])) p = true
             <-> In p [1; 2]).
Proof.
  split; intros p;
    [change (bit_or W) with (bit_named W BM_OR) | change (bit_and W) with (bit_named W BM_AND)];
    rewrite bv_get_named, !bv_of_list_size; cbn [op_bool within size_max andb]; rewrite !of_list_store, <- existsb_eqb_In;
    destruct p as [|[|[|[|[|p]]]]]; simpl; tauto.
Qed.

(** C5.  Aggregator versus pairwise folds: for a non-empty list of
    registered sources, [combine_or(target)] (resp. [combine_and(target)])
    overwrites the target with a vector equal to the left fold of [bit_or]
    (resp. [bit_and]) over the sources, whether optimization is enabled or
    not; the folds give the same vector for every order of the sources; and
    OR over zero sources yields the empty vector. *)
Theorem aggregator_left_fold (a : aggregator) (T : bvector) :
  (agg_sources a <> [] ->
     bv_equiv W (agg_combine_or W gap_limit a T) (fold_named (bit_or W) (agg_sources a))
     /\ bv_equiv W (agg_combine_and W gap_limit a T) (fold_named (bit_and W) (agg_sources a))
     /\ forall srcs, Permutation (agg_sources a) srcs ->
          bv_equiv W (fold_named (bit_or W) srcs) (fold_named (bit_or W) (agg_sources a))
          /\ bv_equiv W (fold_named (bit_and W) srcs) (fold_named (bit_and W) (agg_sources a)))
  /\ (agg_sources a = [] -> bv_equiv W (agg_combine_or W gap_limit a T) bv_empty).
Proof.
  destruct a as [srcs opt]. cbn [agg_sources]. split.
  - destruct srcs as [|s rest]; [congruence|]. intros _.
    change (bit_or W) with (bit_named W BM_OR). change (bit_and W) with (bit_named W BM_AND).
    split; [|split].
    + unfold agg_combine_or. cbv zeta.
      eapply bv_equiv_trans; [apply agg_finish_equiv|]. split.
      * cbn [bv_size agg_size agg_sources fold_named]. now rewrite fold_named_size.
      * intros p. unfold bv_get. cbn [bv_size bv_store agg_size agg_sources fold_named].
        now rewrite fold_named_size, fold_or_store, agg_or_store.
    + unfold agg_combine_and. cbv zeta.
      eapply bv_equiv_trans; [apply agg_finish_equiv|]. split.
      * cbn [bv_size agg_size agg_sources fold_named]. now rewrite fold_named_size.
      * intros p. unfold bv_get. cbn [bv_size bv_store agg_size agg_sources fold_named].
        now rewrite fold_named_size, fold_and_store, agg_and_store.
    + intros srcs' Hp. destruct srcs' as [|s' rest'].
      { apply Permutation_length in Hp. discriminate. }
      cbn [fold_named]. apply Permutation_sym in Hp.
      split; split; try (apply fold_named_size_perm; exact Hp); intros p; unfold bv_get;
        rewrite (fold_named_size_perm _ s' s rest' rest Hp);
        rewrite ?fold_or_store, ?fold_and_store;
        [rewrite (existsb_perm _ _ _ Hp) | rewrite (forallb_perm _ _ _ Hp)]; reflexivity.
  - intros ->. unfold agg_combine_or. cbv zeta.
    eapply bv_equiv_trans; [apply agg_finish_equiv|]. split; [reflexivity|].
    intros p. unfold bv_get, store_get. cbn [bv_size bv_store agg_size foldr agg_sources].
    rewrite map_lookup_imap, !lookup_empty. reflexivity.
Qed.

(** C6.  The table-driven entry point [combine_operation(B, code)] yields
    exactly the same state as the named method for [code]. *)
Theorem combine_operation_named (A B : bvector) (op : operation) :
  combine_operation W A B op = bit_named W op A B.
Proof. unfold combine_operation. now rewrite bit_named_table. Qed.

(** C7.  For every vector [A] and every array, in any order and with
    duplicates: [combine_or(A, array)] equals [A.bit_or(vector of the
    array)] as a BitVector (size and every bit), [combine_and(A, array)] is
    exactly [A.bit_and(vector of the array)], and arrays with the same
    members give equal results for both, so repeated positions have no
    additional effect. *)
Theorem combine_range_as_vector (A : bvector) (arr arr' : list nat) :
  bv_equiv W (combine_or_range W A arr) (bit_or W A (bv_of_list W arr))
  /\ combine_and_range W A arr = bit_and W A (bv_of_list W arr)
  /\ ((forall p, In p arr <-> In p arr') ->
       bv_equiv W (combine_or_range W A arr) (combine_or_range W A arr')
       /\ bv_equiv W (combine_and_range W A arr) (combine_and_range W A arr')).
Proof.
  change (bit_or W) with (bit_named W BM_OR). split; [|split].
  - split.
    + rewrite combine_or_range_size, bit_named_size, bv_of_list_size. now destruct (bv_size A).
    + intros p. rewrite combine_or_range_get, bv_get_named, bv_of_list_size, of_list_store.
      cbn [op_bool]. now destruct (bv_size A).
  - unfold combine_and_range. now rewrite combine_or_range_empty.
  - intros Hs. unfold combine_and_range. rewrite !combine_or_range_empty.
    change (bit_and W) with (bit_named W BM_AND).
    split; split.
    + now rewrite !combine_or_range_size.
    + intros p. rewrite !combine_or_range_get. now rewrite (existsb_same arr arr' p Hs).
    + now rewrite !bit_named_size, !bv_of_list_size.
    + intros p. rewrite !bv_get_named, !bv_of_list_size, !of_list_store.
      now rewrite (existsb_same arr arr' p Hs).
Qed.

(** C8.  [optimize] at any level keeps the size and the bit at every
    position; only the block representations change. *)
Theorem optimize_preserves (level : nat) (V : bvector) :
  bv_size (bv_optimize W gap_limit level V) = bv_size V
  /\ forall p, bv_get W (bv_optimize W gap_limit level V) p = bv_get W V p.
Proof.
  split; [reflexivity|]. intros p. unfold bv_get. rewrite bv_optimize_store. reflexivity.
Qed.

(** C9.  Malformed buffers: deserialize-with-operation into a destination
    whose stored blocks satisfy the block invariants (a) reports [BadHeader]
    for a wrong format marker and leaves the destination untouched, (b)
    reports [Truncated] for every proper prefix of a serialized buffer, (c)
    reports [UnknownTag t] for an unknown block tag after complete records,
    having applied every complete record whole (for the operations other than
    AND the content is then [D.op(Src)]), and (d) whatever the buffer, success
    or failure, leaves a vector whose stored blocks all satisfy the block
    invariants. *)
Theorem malformed_buffer_fail (D Src : bvector) (level : nat) (op : operation) :
  store_ok W (bv_store D) = true ->
  (forall m ws, m <> bm_magic -> op_deserialize W D (m :: ws) op = DeserFail D BadHeader)
  /\ (forall n, n < length (serialize W gap_limit level Src) ->
       exists D', op_deserialize W D (firstn n (serialize W gap_limit level Src)) op
                  = DeserFail D' Truncated
                  /\ store_ok W (bv_store D') = true)
  /\ (forall t k rest, 3 < t ->
       exists D', op_deserialize W D
                    (bm_magic :: size_code (bv_size Src)
                       :: encode_records W gap_limit level Src ++ t :: k :: rest) op
                  = DeserFail D' (UnknownTag t)
                  /\ store_ok W (bv_store D') = true
                  /\ (op <> BM_AND -> forall p, store_get W (bv_store D') p =
                        op_bool op (store_get W (bv_store D) p) (store_get W (bv_store Src) p)))
  /\ (forall ws, match op_deserialize W D ws op with
                 | DeserOk v => store_ok W (bv_store v) = true
                 | DeserFail v _ => store_ok W (bv_store v) = true
                 end).
Proof.
  intros Hok.
  assert (Hall : forall ws, match op_deserialize W D ws op with
                            | DeserOk v => store_ok W (bv_store v) = true
                            | DeserFail v _ => store_ok W (bv_store v) = true
                            end) by (intros ws; now apply op_deserialize_ok).
  split; [|split; [|split]]; [| | |exact Hall].
  - intros m ws Hm. unfold op_deserialize.
    destruct ws as [|c ws]; cbn [decode_header]; rewrite (proj2 (Nat.eqb_neq _ _) Hm); reflexivity.
  - intros n Hn.
    enough (Hf : exists D', op_deserialize W D (firstn n (serialize W gap_limit level Src)) op
                            = DeserFail D' Truncated).
    { destruct Hf as [D' HD]. exists D'. split; [exact HD|].
      pose proof (Hall (firstn n (serialize W gap_limit level Src))) as H. rewrite HD in H. exact H. }
    unfold serialize in *. destruct n as [|[|m]]; [eexists; reflexivity | eexists; reflexivity |].
    cbn [length] in Hn. cbn [firstn]. unfold op_deserialize. cbn [decode_header].
    rewrite Nat.eqb_refl. unfold encode_records in *.
    destruct (loop_trunc (deser_fold W op) level (map_to_list (bv_store Src)) m
                (S (length (firstn m (flat_map (fun kb => encode_block W gap_limit level (fst kb) (snd kb))
                                               (map_to_list (bv_store Src)) ++ [tag_end]))))
                (bv_store D) ∅ ltac:(lia)) as [st' Hst].
    rewrite Hst. eexists. reflexivity.
  - intros t k rest Ht.
    destruct (loop_store (deser_fold W op) (op_bool op) (fun st k b j => store_set_other st k _ j)
                (deser_fold_self op) level (bv_store Src) (bv_store D) ∅)
      as (st' & seen' & H1 & H2 & H3).
    assert (Hst : store_ok W st' = true).
    { pose proof (loop_ok (deser_fold W op) (store_ok_deser_fold op)
                    (count_nonempty (map_to_list (bv_store Src)) + 0) (bv_store D) ∅
                    (flat_map (fun kb => encode_block W gap_limit level (fst kb) (snd kb))
                       (map_to_list (bv_store Src)) ++ []) Hok) as HL.
      rewrite H1 in HL. exact HL. }
    unfold op_deserialize. cbn [decode_header]. rewrite Nat.eqb_refl, size_code_roundtrip.
    destruct (encode_records_fuel level Src) as [fuel Hf].
    replace (S (length (encode_records W gap_limit level Src ++ t :: k :: rest)))
      with (count_nonempty (map_to_list (bv_store Src)) + S (fuel + S (length rest)))
      by (rewrite length_app in *; cbn [length] in *; lia).
    unfold encode_records. rewrite H1. cbn [deser_loop decode_record].
    assert (E0 : (t =? tag_end) = false) by (apply Nat.eqb_neq; unfold tag_end; lia).
    assert (E1 : (t =? tag_full) = false) by (apply Nat.eqb_neq; unfold tag_full; lia).
    assert (E2 : (t =? tag_bit) = false) by (apply Nat.eqb_neq; unfold tag_bit; lia).
    assert (E3 : (t =? tag_gap) = false) by (apply Nat.eqb_neq; unfold tag_gap; lia).
    rewrite E0, E1, E2, E3. eexists. split; [reflexivity|]. split; [exact Hst|].
    intros Hop p. cbn [bv_store]. unfold store_get. pose proof (mod_lt p) as Hi.
    set (j := p / W). set (i := p mod W). fold j i in Hi.
    destruct op; [|now contradiction Hop| |]; first
      [ rewrite H2 by exact Hi;
        destruct (is_empty (blk (bv_store Src !! j))) eqn:E; [|reflexivity];
        destruct (blk (bv_store Src !! j)); try discriminate; simpl;
        destruct (block_get (blk (bv_store D !! j)) i); reflexivity ].
Qed.

(** C10.  [set(array, SORTED)] on a vector that already has set bits adds the
    strictly ascending array positions to the existing content: afterwards a
    position is set exactly when it was set before or occurs in the array. *)
Theorem set_sorted_union (A : bvector) (arr : list nat) :
  strictly_ascending arr = true -> bv_wf W A = true ->
  forall p, bv_get W (bv_set_array W A arr BM_SORTED) p = true <-> bv_get W A p = true \/ In p arr.
Proof.
  intros _ Hwf p. apply bv_wf_within in Hwf. cbn [bv_set_array].
  rewrite import_sorted_get by exact Hwf. rewrite orb_true_iff, existsb_eqb_In. reflexivity.
Qed.

(** ** Further properties of the driver and of the engine it calls *)

Lemma print_loop_spec (en : list nat) (cnt : nat) :
  cnt <= 10 ->
  print_loop cnt en = (map OutPos (firstn (10 - cnt) en), cnt + Nat.min (10 - cnt) (length en)).
Proof.
  revert cnt. induction en as [|x rest IH]; intros cnt Hc; cbn [print_loop].
  - rewrite firstn_nil. simpl. f_equal. lia.
  - destruct (Nat.ltb_spec cnt 10) as [Hlt|Hge].
    + rewrite IH by lia. replace (10 - cnt) with (S (10 - S cnt)) by lia.
      cbn [firstn map length]. f_equal. lia.
    + replace cnt with 10 by lia. simpl. reflexivity.
Qed.

(** X1.  [print_bvector] prints the first ten positions of the enumeration
    (all of them when there are fewer), then [" ..."] exactly when the vector
    has at least ten set positions (also when it has exactly ten, so that
    nothing is left out), then [size()]. *)
Theorem print_bvector_output (v : bvector) :
  print_bvector W v =
  map OutPos (firstn 10 (bv_enumerate W v))
  ++ (if 10 <=? length (bv_enumerate W v) then [OutMore] else [])
  ++ [OutSize (bv_size_value v)].
Proof.
  unfold print_bvector. rewrite print_loop_spec by lia. cbn [Nat.sub Nat.add].
  f_equal. f_equal.
  destruct (Nat.leb_spec 10 (length (bv_enumerate W v))) as [H|H].
  - replace (Nat.min 10 _) with 10 by lia. reflexivity.
  - rewrite (proj2 (Nat.eqb_neq _ _)) by lia. reflexivity.
Qed.

Lemma sa_cons (x : nat) (l : list nat) :
  strictly_ascending l = true -> (forall y, In y l -> x < y) -> strictly_ascending (x :: l) = true.
Proof.
  intros H Hlt. destruct l as [|y l]; [reflexivity|].
  change ((x <? y) && strictly_ascending (y :: l) = true).
  rewrite H, andb_true_r. apply Nat.ltb_lt, Hlt. left. reflexivity.
Qed.

Lemma sa_filter_seq (f : nat -> bool) (s n : nat) :
  strictly_ascending (List.filter f (seq s n)) = true.
Proof.
  revert s. induction n as [|n IH]; intros s; [reflexivity|].
  cbn [seq List.filter]. destruct (f s); [|apply IH].
  apply sa_cons; [apply IH|]. intros y Hy.
  apply filter_In in Hy as [Hy _]. apply in_seq in Hy. lia.
Qed.

Lemma set_below_top (v : bvector) (p : nat) :
  store_get W (bv_store v) p = true -> p < top_block (bv_store v) * W.
Proof.
  unfold store_get. destruct (bv_store v !! (p / W)) as [b|] eqn:E; simpl; [|discriminate].
  intros _. unfold top_block.
  assert (Hk : S (p / W) <= list_max (map (fun kb => S (fst kb)) (map_to_list (bv_store v)))).
  { apply in_le_list_max. apply (in_map (fun kb => S (fst kb)) _ (p / W, b)).
    apply in_map_to_list, E. }
  pose proof (Nat.div_mod p W ltac:(lia)) as Hd. pose proof (mod_lt p).
  apply Nat.lt_le_trans with (S (p / W) * W); [nia|].
  now apply Nat.mul_le_mono_r.
Qed.

Lemma enumerate_spec (v : bvector) :
  strictly_ascending (bv_enumerate W v) = true
  /\ forall p, In p (bv_enumerate W v) <-> bv_get W v p = true.
Proof.
  split; [apply sa_filter_seq|]. intros p. unfold bv_enumerate. rewrite filter_In, in_seq.
  split; [tauto|]. intros H. split; [|exact H]. split; [lia|].
  apply set_below_top. unfold bv_get in H. apply andb_true_iff in H. tauto.
Qed.

(** X3.  A vector built from a list of positions ([bvector<> {1, 2, 3}])
    enumerates the distinct positions of the list in ascending order,
    whatever the order and the repetitions of the list. *)
Theorem enumerate_of_list (l : list nat) :
  strictly_ascending (bv_enumerate W (bv_of_list W l)) = true
  /\ forall p, In p (bv_enumerate W (bv_of_list W l)) <-> In p l.
Proof.
  destruct (enumerate_spec (bv_of_list W l)) as [Ha Hin]. split; [exact Ha|].
  intros p. rewrite Hin, bv_of_list_get. split; [apply existsb_eqb_In|].
  intros H. apply existsb_exists. exists p. split; [exact H|apply Nat.eqb_refl].
Qed.

(** X4.  [make_BLOB] leaves [bv] equal to what it was (its [optimize] only
    changes block representations), and the buffer it writes decodes, with
    no operation, to a vector equal to [bv]. *)
Theorem make_BLOB_roundtrip (v : bvector) :
  bv_equiv W (snd (make_BLOB_io W gap_limit v)) v
  /\ exists d, bv_decode W (fst (make_BLOB_io W gap_limit v)) = DeserOk d /\ bv_equiv W d v.
Proof.
  cbn [make_BLOB_io fst snd].
  split; [split; [reflexivity|]; intros p; unfold bv_get; now rewrite bv_optimize_store|].
  destruct (decode_serialize 4 (bv_optimize W gap_limit opt_compress v)) as (st & Hd & Hst).
  eexists. split; [exact Hd|]. split; [reflexivity|].
  intros p. unfold bv_get. cbn [bv_size bv_store]. now rewrite Hst, bv_optimize_store.
Qed.

(** X5.  The demos' [operation_deserializer::deserialize(bv_A, blob, op)] on
    a BLOB made by [make_BLOB(blob, bv_B)] succeeds, and the result equals
    [bv_A.op(bv_B)] for every operation code and all vectors. *)
Theorem deserialize_BLOB_op (A B : bvector) (op : operation) :
  exists R, op_deserialize W A (fst (make_BLOB_io W gap_limit B)) op = DeserOk R
            /\ bv_equiv W R (bit_named W op A B).
Proof.
  cbn [make_BLOB_io fst].
  destruct (op_deserialize_serialize A (bv_optimize W gap_limit opt_compress B) 4 op)
    as (r & Hr & Hs & Hst).
  exists r. split; [exact Hr|]. split; [now rewrite bit_named_size|].
  intros p. rewrite bv_get_named. unfold bv_get. rewrite Hs, Hst, bv_optimize_store. reflexivity.
Qed.

Lemma resize_store (v : bvector) (n p : nat) :
  store_get W (bv_store (bv_resize W v n)) p = (p <? n) && store_get W (bv_store v) p.
Proof.
  unfold store_get, bv_resize. cbn [bv_store]. rewrite map_lookup_imap.
  pose proof (Nat.div_mod p W ltac:(lia)) as Hd. pose proof (mod_lt p) as Hi.
  destruct (bv_store v !! (p / W)) as [b|]; simpl; [|now rewrite andb_false_r].
  unfold resize_block.
  destruct (Nat.leb_spec n (p / W * W)) as [H1|H1].
  - simpl. rewrite (proj2 (Nat.ltb_ge p n)) by nia. reflexivity.
  - destruct (Nat.leb_spec (S (p / W) * W) n) as [H2|H2].
    + simpl. rewrite (proj2 (Nat.ltb_lt p n)) by nia. reflexivity.
    + rewrite blk_to_slot, rebuild_get by (rewrite ?length_map, ?length_seq; lia).
      rewrite nth_map_seq by exact Hi. simpl.
      replace (p / W * W + p mod W) with p by nia. reflexivity.
Qed.

(** X6.  [resize(n)] gives size [n], keeps every stored bit below [n] and
    drops every bit at or beyond [n] from the store itself, so that growing
    the vector again later does not bring them back. *)
Theorem resize_truncates (v : bvector) (n m : nat) :
  bv_size (bv_resize W v n) = Some n
  /\ (forall p, store_get W (bv_store (bv_resize W v n)) p = (p <? n) && store_get W (bv_store v) p)
  /\ (forall p, bv_get W (bv_resize W (bv_resize W v n) m) p
               = (p <? m) && (p <? n) && store_get W (bv_store v) p).
Proof.
  split; [reflexivity|]. split; [apply resize_store|].
  intros p. unfold bv_get. cbn [bv_size within]. rewrite !resize_store.
  now rewrite !andb_assoc, andb_diag.
Qed.

(** *** Block invariants kept by the other operations *)

Lemma rebuild_ok (b : block) (bits : list bool) :
  length bits = W -> slot_ok W (rebuild b bits) = true.
Proof.
  intros Hl. unfold rebuild, slot_ok.
  destruct (all_zero bits) eqn:Z; [reflexivity|].
  destruct (all_one bits) eqn:O; [reflexivity|].
  destruct b as [| |bs|ts]; cbn [is_empty orb block_ok];
    try (now rewrite Hl, Nat.eqb_refl, Z, O).
  assert (A1 : strictly_ascending (gap_of_bits bits) = true) by apply gap_from_ascending.
  assert (A2 : forallb (fun t => t <? W) (gap_of_bits bits) = true).
  { apply forallb_forall. intros t Ht. apply Nat.ltb_lt. apply gap_from_lt in Ht. lia. }
  now rewrite A1, A2, to_bits_gap, Z, O.
Qed.

Lemma to_slot_ok (b c : block) :
  slot_ok W b = true -> to_slot b = Some c -> block_ok W c = true.
Proof. unfold slot_ok. destruct b; simpl; intros H E; inversion E; subst; exact H. Qed.

Lemma blk_ok (st : gmap nat block) (k : nat) :
  store_ok W st = true -> slot_ok W (blk (st !! k)) = true.
Proof.
  intros H. destruct (st !! k) as [b|] eqn:E; [|reflexivity].
  unfold slot_ok. cbn [blk]. rewrite (proj1 (store_ok_spec st) H k b E). apply orb_true_r.
Qed.

Lemma store_ok_empty : store_ok W ∅ = true.
Proof. unfold store_ok. now rewrite map_to_list_empty. Qed.

Lemma store_put_ok (st : gmap nat block) (k : nat) (b : block) :
  store_ok W st = true -> slot_ok W b = true -> store_ok W (store_put st k b) = true.
Proof.
  rewrite !store_ok_spec. intros H Hb j c Hj. unfold store_put in Hj.
  destruct (to_slot b) as [c'|] eqn:Ec.
  - apply lookup_insert_Some in Hj as [[-> <-]|[_ Hj]]; [|eauto].
    exact (to_slot_ok b c' Hb Ec).
  - apply lookup_delete_Some in Hj as [_ Hj]. eauto.
Qed.

Lemma store_combine_ok (f : block -> block -> block) (st1 st2 : gmap nat block) :
  (forall b1 b2, slot_ok W b1 = true -> slot_ok W b2 = true -> slot_ok W (f b1 b2) = true) ->
  store_ok W st1 = true -> store_ok W st2 = true -> store_ok W (store_combine f st1 st2) = true.
Proof.
  intros Hf H1 H2. apply store_ok_spec. intros j c Hj.
  unfold store_combine in Hj. rewrite lookup_merge in Hj.
  pose proof (blk_ok st1 j H1) as B1. pose proof (blk_ok st2 j H2) as B2.
  destruct (st1 !! j), (st2 !! j); cbn in Hj; try discriminate;
    exact (to_slot_ok _ c (Hf _ _ B1 B2) Hj).
Qed.

Lemma bit_pass_ok (f : bool -> bool -> bool) (b1 b2 : block) :
  slot_ok W (bit_pass W f b1 b2) = true.
Proof. apply rebuild_ok. now rewrite length_map, length_seq. Qed.

Lemma table_block_ok (op : operation) (b1 b2 : block) :
  slot_ok W b1 = true -> slot_ok W b2 = true -> slot_ok W (table_block W op b1 b2) = true.
Proof.
  intros H1 H2. unfold table_block.
  destruct (dispatch op (tag_of b1) (tag_of b2)); auto using bit_pass_ok.
Qed.

Lemma named_ok (op : operation) (a b : bvector) :
  store_ok W (bv_store a) = true -> store_ok W (bv_store b) = true ->
  store_ok W (bv_store (bit_named W op a b)) = true
  /\ store_ok W (bv_store (combine_operation W a b op)) = true.
Proof.
  intros Ha Hb. rewrite bit_named_table.
  split; apply store_combine_ok; auto using table_block_ok.
Qed.

(** X7.  The binary operations ([bit_or], [bit_and], [bit_sub], [bit_xor])
    and [combine_operation] keep the block invariant: when every stored block
    of both arguments is valid, so is every stored block of the result. *)
Theorem binary_ops_keep_valid (op : operation) (a b : bvector) :
  store_ok W (bv_store a) = true -> store_ok W (bv_store b) = true ->
  store_ok W (bv_store (bit_named W op a b)) = true
  /\ store_ok W (bv_store (combine_operation W a b op)) = true.
Proof. apply named_ok. Qed.

Lemma block_set_bits_ok (b : block) (offs : list nat) :
  slot_ok W (block_set_bits W b offs) = true.
Proof.
  destruct b; cbn [block_set_bits]; try reflexivity;
    apply rebuild_ok; now rewrite length_map, length_seq.
Qed.

Lemma set_bit_ok (v : bvector) (p : nat) :
  store_ok W (bv_store v) = true -> store_ok W (bv_store (bv_set_bit W v p)) = true.
Proof. intros H. apply store_put_ok; [exact H|apply block_set_bits_ok]. Qed.

Lemma fold_set_ok (arr : list nat) (v : bvector) :
  store_ok W (bv_store v) = true ->
  store_ok W (bv_store (fold_left (bv_set_bit W) arr v)) = true.
Proof.
  revert v. induction arr as [|p arr IH]; intros v H; [exact H|].
  apply IH, set_bit_ok, H.
Qed.

Lemma import_run_ok (arr : list nat) (st : gmap nat block) (k : nat) (offs : list nat) :
  store_ok W st = true -> store_ok W (import_run W st k offs arr) = true.
Proof.
  revert st k offs. induction arr as [|p arr IH]; intros st k offs H; cbn [import_run].
  - apply store_put_ok; [exact H|apply block_set_bits_ok].
  - destruct (p / W =? k); apply IH; [exact H|].
    apply store_put_ok; [exact H|apply block_set_bits_ok].
Qed.

(** X8.  Setting bits keeps the block invariant: [set(position)], the list
    constructor, [set(array, count, hint)] in both modes and the range
    combinations [bm::combine_or] and [bm::combine_and] produce only valid
    stored blocks from a vector whose stored blocks are valid. *)
Theorem set_bits_keep_valid (v : bvector) (p : nat) (l arr : list nat) (hint : sort_mode) :
  store_ok W (bv_store v) = true ->
  store_ok W (bv_store (bv_set_bit W v p)) = true
  /\ store_ok W (bv_store (bv_of_list W l)) = true
  /\ store_ok W (bv_store (bv_set_array W v arr hint)) = true
  /\ store_ok W (bv_store (combine_or_range W v arr)) = true
  /\ store_ok W (bv_store (combine_and_range W v arr)) = true.
Proof.
  intros H. split; [now apply set_bit_ok|].
  split; [apply fold_set_ok, store_ok_empty|].
  split; [|split; [cbn [combine_or_range bv_store]; now apply fold_set_ok|]].
  - destruct hint; [|now apply fold_set_ok].
    destruct arr as [|q rest]; [exact H|]. apply import_run_ok, H.
  - unfold combine_and_range. change (bit_and W) with (bit_named W BM_AND).
    refine (proj1 (named_ok BM_AND _ _ H _)). cbn [combine_or_range bv_store].
    apply fold_set_ok, store_ok_empty.
Qed.

Lemma to_bits_Empty : all_zero (to_bits W Empty) = true.
Proof.
  unfold all_zero, to_bits. apply forallb_forall. intros x Hx.
  apply in_map_iff in Hx as (i & <- & _). reflexivity.
Qed.

Lemma optimize_block_ok (level : nat) (b : block) :
  3 <= level \/ block_ok W b = true -> slot_ok W (optimize_block W gap_limit level b) = true.
Proof.
  intros Hl. assert (Hb : 3 <= level \/ slot_ok W b = true)
    by (destruct Hl as [Hl|Hl]; [left; exact Hl|right; unfold slot_ok; rewrite Hl; apply orb_true_r]).
  unfold optimize_block. destruct level as [|l]; [destruct Hb; [lia|assumption]|].
  destruct (all_zero (to_bits W b)) eqn:Z; [reflexivity|].
  destruct (2 <=? S l) eqn:L2; [|destruct Hb as [Hb|Hb]; [apply Nat.leb_gt in L2; lia|exact Hb]].
  destruct (all_one (to_bits W b)) eqn:O; [reflexivity|].
  destruct (3 <=? S l) eqn:L3; [|destruct Hb as [Hb|Hb]; [apply Nat.leb_gt in L3; lia|exact Hb]].
  destruct (length (gap_of_bits (to_bits W b)) <? gap_limit).
  - replace (RunList (gap_of_bits (to_bits W b))) with (rebuild (RunList []) (to_bits W b))
      by (unfold rebuild; now rewrite Z, O).
    apply rebuild_ok, length_to_bits.
  - replace (Bitmap (to_bits W b)) with (rebuild Empty (to_bits W b))
      by (unfold rebuild; now rewrite Z, O).
    apply rebuild_ok, length_to_bits.
Qed.

Lemma bv_optimize_ok (level : nat) (v : bvector) :
  3 <= level \/ store_ok W (bv_store v) = true ->
  store_ok W (bv_store (bv_optimize W gap_limit level v)) = true.
Proof.
  intros Hl. apply store_ok_spec. intros j c Hj. cbn [bv_optimize bv_store] in Hj.
  rewrite map_lookup_imap in Hj. destruct (bv_store v !! j) as [b|] eqn:E; [|discriminate].
  cbn in Hj. refine (to_slot_ok _ c _ Hj). apply optimize_block_ok.
  destruct Hl as [Hl|Hl]; [left; exact Hl|right; exact (proj1 (store_ok_spec _) Hl j b E)].
Qed.

(** X9.  [optimize(opt_compress)], the call [make_BLOB] makes, leaves every
    stored block valid whatever the vector it is given; a lower level keeps
    the blocks valid when they were valid before. *)
Theorem optimize_makes_valid (level : nat) (v : bvector) :
  3 <= level \/ store_ok W (bv_store v) = true ->
  store_ok W (bv_store (bv_optimize W gap_limit level v)) = true.
Proof. apply bv_optimize_ok. Qed.

Lemma store_get_at (st : gmap nat block) (k i : nat) :
  i < W -> store_get W st (k * W + i) = block_get (blk (st !! k)) i.
Proof.
  intros Hi. unfold store_get.
  rewrite <- (Nat.div_unique (k * W + i) W k i Hi) by lia.
  rewrite <- (Nat.mod_unique (k * W + i) W k i Hi) by lia. reflexivity.
Qed.

Lemma optimize_bits (level : nat) (b1 b2 : block) :
  3 <= level -> to_bits W b1 = to_bits W b2 ->
  optimize_block W gap_limit level b1 = optimize_block W gap_limit level b2.
Proof.
  intros Hl Hb. destruct level as [|[|[|l]]]; [lia..|].
  cbn [optimize_block Nat.leb]. now rewrite Hb.
Qed.

Lemma optimize_slot (level : nat) (o : option block) :
  3 <= level ->
  o ≫= (fun b => to_slot (optimize_block W gap_limit level b))
  = to_slot (optimize_block W gap_limit level (blk o)).
Proof.
  intros Hl. destruct o as [b|]; [reflexivity|].
  destruct level as [|[|[|l]]]; [lia..|]. cbn [optimize_block blk].
  now rewrite to_bits_Empty.
Qed.

Lemma optimize_canon_store (level : nat) (v1 v2 : bvector) :
  3 <= level ->
  (forall p, store_get W (bv_store v1) p = store_get W (bv_store v2) p) ->
  bv_store (bv_optimize W gap_limit level v1) = bv_store (bv_optimize W gap_limit level v2).
Proof.
  intros Hl Hp. apply map_eq. intros k. cbn [bv_optimize bv_store].
  rewrite !map_lookup_imap, !optimize_slot by exact Hl. f_equal.
  apply optimize_bits; [exact Hl|]. unfold to_bits. apply map_ext_in. intros i Hi.
  apply in_seq in Hi. rewrite <- !store_get_at by lia. apply Hp.
Qed.

(** X10.  From [optimize(opt_compress)] on, the optimized store depends on
    the bits only: two vectors with the same stored bits get identical
    stores, whatever the blocks they started with. *)
Theorem optimize_canonical (level : nat) (v1 v2 : bvector) :
  3 <= level ->
  (forall p, store_get W (bv_store v1) p = store_get W (bv_store v2) p) ->
  bv_store (bv_optimize W gap_limit level v1) = bv_store (bv_optimize W gap_limit level v2).
Proof. apply optimize_canon_store. Qed.

(** X11.  [optimize(opt_compress)] is idempotent: optimizing twice gives the
    very same vector as optimizing once. *)
Theorem optimize_idempotent (level : nat) (v : bvector) :
  3 <= level ->
  bv_optimize W gap_limit level (bv_optimize W gap_limit level v) = bv_optimize W gap_limit level v.
Proof.
  intros Hl. destruct v as [sz st]. unfold bv_optimize at 1. cbn [bv_size].
  change (map_imap (fun _ b => to_slot (optimize_block W gap_limit level b))
            (bv_store (bv_optimize W gap_limit level (mk_bv sz st))))
    with (bv_store (bv_optimize W gap_limit level (bv_optimize W gap_limit level (mk_bv sz st)))).
  rewrite (optimize_canon_store level _ (mk_bv sz st) Hl) by apply bv_optimize_store.
  reflexivity.
Qed.

(** X12.  [resize(n)] keeps the block invariant. *)
Theorem resize_keeps_valid (v : bvector) (n : nat) :
  store_ok W (bv_store v) = true -> store_ok W (bv_store (bv_resize W v n)) = true.
Proof.
  intros H. apply store_ok_spec. intros j c Hj. cbn [bv_resize bv_store] in Hj.
  rewrite map_lookup_imap in Hj. destruct (bv_store v !! j) as [b|] eqn:E; [|discriminate].
  cbn in Hj. unfold resize_block in Hj.
  destruct (n <=? j * W); [discriminate|].
  destruct (S j * W <=? n).
  - inversion Hj. subst. exact (proj1 (store_ok_spec _) H j c E).
  - refine (to_slot_ok _ c _ Hj). apply rebuild_ok. now rewrite length_map, length_seq.
Qed.

Lemma agg_or_block_ok (bs : list block) :
  forallb (slot_ok W) bs = true -> slot_ok W (agg_or_block W bs) = true.
Proof.
  intros H. unfold agg_or_block. destruct (existsb is_full bs); [reflexivity|].
  destruct (List.filter (fun b => negb (is_empty b)) bs) as [|b [|b' l]] eqn:F.
  - reflexivity.
  - assert (Hb : In b (List.filter (fun b => negb (is_empty b)) bs)) by (rewrite F; left; reflexivity).
    apply filter_In in Hb as [Hb _]. exact (proj1 (forallb_forall _ _) H b Hb).
  - apply rebuild_ok. now rewrite length_map, length_seq.
Qed.

Lemma agg_and_block_ok (bs : list block) :
  forallb (slot_ok W) bs = true -> slot_ok W (agg_and_block W bs) = true.
Proof.
  intros H. unfold agg_and_block. destruct (existsb is_empty bs); [reflexivity|].
  destruct (List.filter (fun b => negb (is_full b)) bs) as [|b [|b' l]] eqn:F.
  - reflexivity.
  - assert (Hb : In b (List.filter (fun b => negb (is_full b)) bs)) by (rewrite F; left; reflexivity).
    apply filter_In in Hb as [Hb _]. exact (proj1 (forallb_forall _ _) H b Hb).
  - apply rebuild_ok. now rewrite length_map, length_seq.
Qed.

Lemma blocks_at_ok (srcs : list bvector) (k : nat) :
  forallb (fun v => store_ok W (bv_store v)) srcs = true ->
  forallb (slot_ok W) (blocks_at srcs k) = true.
Proof.
  intros H. apply forallb_forall. intros x Hx. unfold blocks_at in Hx.
  apply in_map_iff in Hx as (v & <- & Hv). apply blk_ok.
  exact (proj1 (forallb_forall _ _) H v Hv).
Qed.

Lemma agg_finish_ok (a : aggregator) (v : bvector) :
  store_ok W (bv_store v) = true -> store_ok W (bv_store (agg_finish W gap_limit a v)) = true.
Proof.
  intros H. unfold agg_finish. destruct (agg_optimize a); [|exact H].
  apply bv_optimize_ok. right. exact H.
Qed.

Lemma imap_slot_ok (g : nat -> block) (keys : gmap nat block) :
  (forall k, slot_ok W (g k) = true) ->
  store_ok W (map_imap (fun k _ => to_slot (g k)) keys) = true.
Proof.
  intros Hg. apply store_ok_spec. intros j c Hj. rewrite map_lookup_imap in Hj.
  destruct (keys !! j); [|discriminate]. cbn in Hj. exact (to_slot_ok _ c (Hg j) Hj).
Qed.

(** X13.  The aggregator keeps the block invariant: when every stored block
    of every attached source is valid, [combine_or] and [combine_and] store
    only valid blocks in the target, with or without [set_optimization]. *)
Theorem aggregator_keeps_valid (a : aggregator) (target : bvector) :
  forallb (fun v => store_ok W (bv_store v)) (agg_sources a) = true ->
  store_ok W (bv_store (agg_combine_or W gap_limit a target)) = true
  /\ store_ok W (bv_store (agg_combine_and W gap_limit a target)) = true.
Proof.
  intros H. split; apply agg_finish_ok; cbn [bv_store]; apply imap_slot_ok; intros k.
  - apply agg_or_block_ok, blocks_at_ok, H.
  - apply agg_and_block_ok, blocks_at_ok, H.
Qed.

(** X14.  Deserialization keeps the block invariant, also when it stops on
    a malformed buffer: decoding any word stream stores only valid blocks,
    and [operation_deserializer::deserialize] into a destination with valid
    blocks leaves valid blocks, whether it succeeds or fails. *)
Theorem deserialize_keeps_valid (D : bvector) (ws : list nat) (op : operation) :
  store_ok W (bv_store D) = true ->
  match op_deserialize W D ws op with
  | DeserOk v => store_ok W (bv_store v) = true
  | DeserFail v _ => store_ok W (bv_store v) = true
  end
  /\ match bv_decode W ws with
     | DeserOk v => store_ok W (bv_store v) = true
     | DeserFail v _ => store_ok W (bv_store v) = true
     end.
Proof.
  intros H. split; [now apply op_deserialize_ok|]. unfold bv_decode.
  destruct (decode_header ws) as [[sz body]|e]; [|apply store_ok_empty].
  pose proof (loop_ok (store_set W) store_set_ok (S (length body)) ∅ ∅ body store_ok_empty) as HL.
  destruct (deser_loop W (S (length body)) (store_set W) ∅ ∅ body) as [[st seen]|[st e]];
    exact HL.
Qed.

End Proofs.

(** * Instances at the demo's inputs (block width 8, RunList threshold 3) *)

Lemma deserialize_op_equiv_witness :
  exists D' S',
    op_deserialize 8 demo_A (serialize 8 3 4 (bv_optimize 8 3 opt_compress demo_B)) BM_OR = DeserOk D'
    /\ bv_decode 8 (serialize 8 3 4 (bv_optimize 8 3 opt_compress demo_B)) = DeserOk S'
    /\ bv_equiv 8 D' (bit_named 8 BM_OR demo_A S')
    /\ bv_equiv 8 D' (bit_named 8 BM_OR demo_A (bv_optimize 8 3 opt_compress demo_B)).
Proof. apply (deserialize_op_equiv 8); lia. Defined.

Lemma serialize_roundtrip_witness :
  exists V1 V2,
    bv_decode 8 (serialize 8 3 0 demo_B) = DeserOk V1
    /\ bv_decode 8 (serialize 8 3 4 demo_B) = DeserOk V2
    /\ bv_equiv 8 V1 demo_B /\ bv_equiv 8 V1 V2.
Proof. apply (serialize_roundtrip 8); lia. Defined.

Lemma size_growth_witness :
  bv_size (bv_resize 8 demo_A 5) <> bv_size (bv_resize 8 demo_B 10)
  /\ bv_size (bit_named 8 BM_AND (bv_resize 8 demo_A 5) (bv_resize 8 demo_B 10)) = Some 10.
Proof.
  assert (H : bv_size (bv_resize 8 demo_A 5) <> bv_size (bv_resize 8 demo_B 10))
    by (vm_compute; discriminate).
  split; [exact H|].
  destruct (size_growth 8 ltac:(lia) _ _ BM_AND H) as [E _].
  rewrite E. reflexivity.
Defined.

Lemma demo_or_and_sets_witness :
  (forall p, bv_get 8 (bit_or 8 (bv_of_list 8 [1; 2; 3]) (bv_of_list 8 [1; 2; 4])) p = true
             <-> In p [1; 2; 3; 4])
  /\ (forall p, bv_get 8 (bit_and 8 (bv_of_list 8 [1; 2; 3]) (bv_of_list 8 [1; 2; 4])) p = true
             <-> In p [1; 2]).
Proof. apply (demo_or_and_sets 8). lia. Defined.

Lemma aggregator_left_fold_witness :
  bv_equiv 8 (agg_combine_or 8 3 demo_agg_or bv_empty)
             (fold_named (bit_or 8) (agg_sources demo_agg_or))
  /\ bv_equiv 8 (agg_combine_and 8 3 demo_agg_and bv_empty)
               (fold_named (bit_and 8) (agg_sources demo_agg_and)).
Proof.
  split.
  - destruct (aggregator_left_fold 8 ltac:(lia) 3 demo_agg_or bv_empty) as [H _].
    apply H. intros Hc. vm_compute in Hc. discriminate Hc.
  - destruct (aggregator_left_fold 8 ltac:(lia) 3 demo_agg_and bv_empty) as [H _].
    apply H. intros Hc. vm_compute in Hc. discriminate Hc.
Defined.

Lemma combine_range_as_vector_witness :
  bv_equiv 8 (combine_or_range 8 (bv_resize 8 demo_A 5) [4; 1; 4])
             (bit_or 8 (bv_resize 8 demo_A 5) (bv_of_list 8 [4; 1; 4]))
  /\ combine_and_range 8 (bv_resize 8 demo_A 5) [4; 1; 4]
     = bit_and 8 (bv_resize 8 demo_A 5) (bv_of_list 8 [4; 1; 4])
  /\ ((forall p, In p [4; 1; 4] <-> In p [1; 4]) ->
       bv_equiv 8 (combine_or_range 8 (bv_resize 8 demo_A 5) [4; 1; 4])
                  (combine_or_range 8 (bv_resize 8 demo_A 5) [1; 4])
       /\ bv_equiv 8 (combine_and_range 8 (bv_resize 8 demo_A 5) [4; 1; 4])
                    (combine_and_range 8 (bv_resize 8 demo_A 5) [1; 4])).
Proof. apply (combine_range_as_vector 8). lia. Defined.

Lemma optimize_preserves_witness :
  bv_size (bv_optimize 8 3 opt_compress demo_B) = bv_size demo_B
  /\ forall p, bv_get 8 (bv_optimize 8 3 opt_compress demo_B) p = bv_get 8 demo_B p.
Proof. apply (optimize_preserves 8). lia. Defined.

Lemma malformed_buffer_fail_witness :
  store_ok 8 (bv_store demo_A) = true
  /\ op_deserialize 8 demo_A [0; 0; 0] BM_OR = DeserFail demo_A BadHeader.
Proof.
  assert (Hok : store_ok 8 (bv_store demo_A) = true) by (vm_compute; reflexivity).
  split; [exact Hok|].
  destruct (malformed_buffer_fail 8 ltac:(lia) 3 demo_A demo_B 4 BM_OR Hok) as [Ha _].
  apply Ha. unfold bm_magic. lia.
Defined.

Lemma set_sorted_union_witness :
  bv_get 8 (bv_set_array 8 demo_A [1; 2; 4] BM_SORTED) 4 = true.
Proof.
  apply (proj2 (set_sorted_union 8 ltac:(lia) demo_A [1; 2; 4]
                  ltac:(vm_compute; reflexivity) ltac:(vm_compute; reflexivity) 4)).
  right. simpl. auto.
Defined.

(** ** Instances of the further properties *)

Lemma print_bvector_output_witness :
  print_bvector 8 (bv_of_list 8 (seq 0 12)) =
  map OutPos (firstn 10 (bv_enumerate 8 (bv_of_list 8 (seq 0 12))))
  ++ (if 10 <=? length (bv_enumerate 8 (bv_of_list 8 (seq 0 12))) then [OutMore] else [])
  ++ [OutSize (bv_size_value (bv_of_list 8 (seq 0 12)))].
Proof. apply (print_bvector_output 8). lia. Defined.

Lemma enumerate_of_list_witness :
  strictly_ascending (bv_enumerate 8 (bv_of_list 8 [9; 3; 1; 3])) = true
  /\ forall p, In p (bv_enumerate 8 (bv_of_list 8 [9; 3; 1; 3])) <-> In p [9; 3; 1; 3].
Proof. apply (enumerate_of_list 8). lia. Defined.

Lemma make_BLOB_roundtrip_witness :
  bv_equiv 8 (snd (make_BLOB_io 8 3 demo_B)) demo_B
  /\ exists d, bv_decode 8 (fst (make_BLOB_io 8 3 demo_B)) = DeserOk d /\ bv_equiv 8 d demo_B.
Proof. apply (make_BLOB_roundtrip 8). lia. Defined.

Lemma deserialize_BLOB_op_witness :
  exists R, op_deserialize 8 demo_A (fst (make_BLOB_io 8 3 demo_B)) BM_SUB = DeserOk R
            /\ bv_equiv 8 R (bit_named 8 BM_SUB demo_A demo_B).
Proof. apply (deserialize_BLOB_op 8). lia. Defined.

Lemma resize_truncates_witness :
  bv_size (bv_resize 8 demo_A 2) = Some 2
  /\ (forall p, store_get 8 (bv_store (bv_resize 8 demo_A 2)) p = (p <? 2) && store_get 8 (bv_store demo_A) p)
  /\ (forall p, bv_get 8 (bv_resize 8 (bv_resize 8 demo_A 2) 10) p
               = (p <? 10) && (p <? 2) && store_get 8 (bv_store demo_A) p).
Proof. apply (resize_truncates 8). lia. Defined.

Lemma binary_ops_keep_valid_witness :
  store_ok 8 (bv_store (bit_named 8 BM_XOR demo_A demo_B)) = true
  /\ store_ok 8 (bv_store (combine_operation 8 demo_A demo_B BM_XOR)) = true.
Proof. apply (binary_ops_keep_valid 8); [lia | vm_compute; reflexivity | vm_compute; reflexivity]. Defined.

Lemma set_bits_keep_valid_witness :
  store_ok 8 (bv_store (bv_set_bit 8 demo_A 12)) = true
  /\ store_ok 8 (bv_store (bv_of_list 8 [5; 1])) = true
  /\ store_ok 8 (bv_store (bv_set_array 8 demo_A [4; 9; 10] BM_SORTED)) = true
  /\ store_ok 8 (bv_store (combine_or_range 8 demo_A [4; 9; 10])) = true
  /\ store_ok 8 (bv_store (combine_and_range 8 demo_A [4; 9; 10])) = true.
Proof. apply (set_bits_keep_valid 8); [lia | vm_compute; reflexivity]. Defined.

Lemma optimize_makes_valid_witness :
  store_ok 8 (bv_store (bv_optimize 8 3 opt_compress
    (mk_bv None (<[0 := Bitmap (repeat false 8)]> (<[1 := RunList [0]]> ∅))))) = true.
Proof. apply (optimize_makes_valid 8); [lia | left; unfold opt_compress; lia]. Defined.

Lemma optimize_canonical_witness :
  bv_store (bv_optimize 8 3 opt_compress demo_A)
  = bv_store (bv_optimize 8 3 opt_compress (bv_optimize 8 3 opt_compress demo_A)).
Proof.
  apply (optimize_canonical 8); [lia | unfold opt_compress; lia |].
  intros p. symmetry. apply (bv_optimize_store 8). lia.
Defined.

Lemma optimize_idempotent_witness :
  bv_optimize 8 3 opt_compress (bv_optimize 8 3 opt_compress demo_B) = bv_optimize 8 3 opt_compress demo_B.
Proof. apply (optimize_idempotent 8); [lia | unfold opt_compress; lia]. Defined.

Lemma resize_keeps_valid_witness :
  store_ok 8 (bv_store (bv_resize 8 demo_A 2)) = true.
Proof. apply (resize_keeps_valid 8); [lia | vm_compute; reflexivity]. Defined.

Lemma aggregator_keeps_valid_witness :
  store_ok 8 (bv_store (agg_combine_or 8 3 demo_agg_or bv_empty)) = true
  /\ store_ok 8 (bv_store (agg_combine_and 8 3 demo_agg_and bv_empty)) = true.
Proof.
  split.
  - apply (aggregator_keeps_valid 8 ltac:(lia) 3 demo_agg_or bv_empty). vm_compute. reflexivity.
  - apply (aggregator_keeps_valid 8 ltac:(lia) 3 demo_agg_and bv_empty). vm_compute. reflexivity.
Defined.

Lemma deserialize_keeps_valid_witness :
  match op_deserialize 8 demo_A [186; 0; 2; 0; 1] BM_AND with
  | DeserOk v => store_ok 8 (bv_store v) = true
  | DeserFail v _ => store_ok 8 (bv_store v) = true
  end
  /\ match bv_decode 8 [186; 0; 2; 0; 1] with
     | DeserOk v => store_ok 8 (bv_store v) = true
     | DeserFail v _ => store_ok 8 (bv_store v) = true
     end.
Proof. apply (deserialize_keeps_valid 8); [lia | vm_compute; reflexivity]. Defined.
